(** * StreamCut Pro: the segment-decision engine

    A shallow embedding of the interval logic of
    [src/core/processor.py], [src/core/whisper_handler.py] and
    [src/core/ffmpeg_handler.py], with the properties the specification
    states about it.

    Time stamps.  The program handles time stamps as Python numbers; every
    property below depends only on their order and on [+], [-] and [max].
    They are modelled as integers [Z] counting a fixed unit of time
    (for instance milliseconds), where these operations are exact. *)

From Stdlib Require Import ZArith List Bool Lia String.
From Stdlib Require Import Sorting.Sorted Sorting.Permutation.
Import ListNotations.

Open Scope Z_scope.

(** ** Data model *)

(** [Tuple[float, float]]: a pair [(start, end)]. *)
Definition interval : Type := (Z * Z)%type.

Definition istart (iv : interval) : Z := fst iv.
Definition iend (iv : interval) : Z := snd iv.

(** The data model's [TimeInterval] asks for [start <= end]. *)
Definition well_formed (iv : interval) : Prop := istart iv <= iend iv.

(** Sum of [end - start] over a list, as in
    [sum(end - start for start, end in keep_segments)]. *)
Fixpoint total_length (l : list interval) : Z :=
  match l with
  | [] => 0
  | (s, e) :: r => (e - s) + total_length r
  end.

(** ** Python's [sorted] on a list of pairs

    Tuples compare lexicographically; the result is the ascending
    rearrangement of the input.  Two pairs that compare equal are the same
    pair, so the result does not depend on the sorting algorithm; insertion
    sort is used here. *)

Definition tuple_le (a b : interval) : bool :=
  (fst a <? fst b) || ((fst a =? fst b) && (snd a <=? snd b)).

Fixpoint insert (x : interval) (l : list interval) : list interval :=
  match l with
  | [] => [x]
  | y :: r => if tuple_le x y then x :: y :: r else y :: insert x r
  end.

Fixpoint sorted (l : list interval) : list interval :=
  match l with
  | [] => []
  | x :: r => insert x (sorted r)
  end.

(** ** Orderings on interval lists *)

(** Ascending by start (every earlier element starts no later than every
    later one). *)
Definition sorted_by_start (l : list interval) : Prop :=
  StronglySorted (fun a b => istart a <= istart b) l.

(** Pairwise non-overlapping, earlier before later: every earlier element
    ends no later than every later one starts (touching is allowed). *)
Definition non_overlapping (l : list interval) : Prop :=
  StronglySorted (fun a b => iend a <= istart b) l.

(** Executable version. *)
Fixpoint pairwiseb (R : interval -> interval -> bool) (l : list interval) : bool :=
  match l with
  | [] => true
  | x :: r => forallb (R x) r && pairwiseb R r
  end.

Definition sorted_by_startb : list interval -> bool :=
  pairwiseb (fun a b => istart a <=? istart b).

(** A time point [t] is covered by [(a, b)] when [a <= t < b]: the interval
    covers the unit of time that starts at [t]. *)
Definition covers (t : Z) (iv : interval) : bool :=
  (istart iv <=? t) && (t <? iend iv).

Definition covered (t : Z) (l : list interval) : bool := existsb (covers t) l.

(** With both end points included. *)
Definition covers_closed (t : Z) (iv : interval) : bool :=
  (istart iv <=? t) && (t <=? iend iv).

Definition covered_closed (t : Z) (l : list interval) : bool :=
  existsb (covers_closed t) l.

(** ** processor.py: [_invert_segments] *)

(** The body of [for start, end in sorted(silence_segments)], on the
    remaining elements, with the two loop variables [keep_segments] and
    [last_end]. *)
Fixpoint invert_loop (l : list interval) (keep_segments : list interval)
    (last_end : Z) : list interval * Z :=
  match l with
  | [] => (keep_segments, last_end)
  | (start, end_) :: r =>
      let keep_segments' :=
        if start >? last_end then keep_segments ++ [(last_end, start)]
        else keep_segments in
      invert_loop r keep_segments' end_
  end.

Definition _invert_segments (silence_segments : list interval)
    (total_duration : Z) : list interval :=
  match silence_segments with
  | [] => [(0, total_duration)]
  | _ =>
      let '(keep_segments, last_end) :=
        invert_loop (sorted silence_segments) [] 0 in
      if last_end <? total_duration
      then keep_segments ++ [(last_end, total_duration)]
      else keep_segments
  end.

(** ** processor.py: [_merge_segments] *)

(** The inner [for ... in silence_segments] with its [break]: the value of
    [overlaps_silence] when the loop ends. *)
Fixpoint overlaps_silence (speech_start speech_end : Z)
    (silence_segments : list interval) : bool :=
  match silence_segments with
  | [] => false
  | (silence_start, silence_end) :: r =>
      if negb ((speech_end <? silence_start) || (speech_start >? silence_end))
      then true
      else overlaps_silence speech_start speech_end r
  end.

Fixpoint merge_loop (speech_segments silence_segments keep_segments : list interval)
    : list interval :=
  match speech_segments with
  | [] => keep_segments
  | (speech_start, speech_end) :: r =>
      let keep_segments' :=
        if negb (overlaps_silence speech_start speech_end silence_segments)
        then keep_segments ++ [(speech_start, speech_end)]
        else keep_segments in
      merge_loop r silence_segments keep_segments'
  end.

Definition _merge_segments (speech_segments silence_segments : list interval)
    : list interval :=
  merge_loop speech_segments silence_segments [].

(** The overlap rule of the specification: the two intervals overlap unless
    the speech ends before the silence starts or starts after it ends. *)
Definition overlap (speech silence : interval) : Prop :=
  ~ (iend speech < istart silence \/ istart speech > iend silence).

Definition overlapb (speech silence : interval) : bool :=
  negb ((iend speech <? istart silence) || (istart speech >? iend silence)).

(** ** processor.py: [_count_removed_segments] *)

Definition _count_removed_segments (keep_segments : list interval)
    (total_duration : Z) : Z :=
  match keep_segments with
  | [] => 0
  | _ => Z.of_nat (List.length keep_segments) - 1
  end.

(** ** processor.py: the rows of [generate_timestamp_report] *)

Inductive action : Type := REMOVED | KEPT.

Inductive row_label : Type := Cut | Clip.

(** One CSV row after the header.  The writer prints [row_start], [row_end]
    and [row_duration] through [_format_duration]; the row keeps the numbers
    that are printed. *)
Record row : Type := mkRow {
  row_label_kind : row_label;
  row_number : Z;
  row_start : Z;
  row_end : Z;
  row_duration : Z;
  row_action : action
}.

Definition action_eqb (a b : action) : bool :=
  match a, b with
  | REMOVED, REMOVED => true
  | KEPT, KEPT => true
  | _, _ => false
  end.

(** The loop [for start, end in sorted(segments)] with its variables
    [segment_num] and [last_end]; [rows] collects the rows written. *)
Fixpoint report_loop (l : list interval) (rows : list row) (segment_num : Z)
    (last_end : Z) : list row * Z * Z :=
  match l with
  | [] => (rows, segment_num, last_end)
  | (start, end_) :: r =>
      let '(rows1, segment_num1) :=
        if start >? last_end
        then (rows ++ [mkRow Cut segment_num last_end start (start - last_end) REMOVED],
              segment_num + 1)
        else (rows, segment_num) in
      let rows2 := rows1 ++ [mkRow Clip segment_num1 start end_ (end_ - start) KEPT] in
      report_loop r rows2 (segment_num1 + 1) end_
  end.

Definition timestamp_rows (segments : list interval) (total_duration : Z)
    : list row :=
  let '(rows, segment_num, last_end) := report_loop (sorted segments) [] 1 0 in
  if last_end <? total_duration
  then rows ++ [mkRow Cut segment_num last_end total_duration
                      (total_duration - last_end) REMOVED]
  else rows.

(** [generate_timestamp_report]: [file_ok] tells whether opening and writing
    the file raised no exception; the function returns that flag, and the
    rows are what was written. *)
Definition generate_timestamp_report (segments : list interval)
    (total_duration : Z) (file_ok : bool) : bool * list row :=
  if file_ok then (true, timestamp_rows segments total_duration)
  else (false, []).

(** Rows that follow one another without gap or overlap, from [from] on;
    the result is where the last row ends. *)
Fixpoint contiguous_from (from : Z) (rows : list row) : option Z :=
  match rows with
  | [] => Some from
  | r :: rest =>
      if (row_start r =? from) && (row_start r <=? row_end r)
      then contiguous_from (row_end r) rest
      else None
  end.

(** The rows tile [[0, total_duration]]. *)
Definition partitions (rows : list row) (total_duration : Z) : Prop :=
  contiguous_from 0 rows = Some total_duration.

(** No two neighbouring rows carry the same action. *)
Fixpoint alternating (rows : list row) : bool :=
  match rows with
  | [] => true
  | r :: rest =>
      match rest with
      | [] => true
      | r' :: _ => negb (action_eqb (row_action r) (row_action r')) && alternating rest
      end
  end.

(** No two neighbouring rows are both [REMOVED]. *)
Fixpoint no_adjacent_removed (rows : list row) : bool :=
  match rows with
  | [] => true
  | r :: rest =>
      match rest with
      | [] => true
      | r' :: _ =>
          negb (action_eqb (row_action r) REMOVED && action_eqb (row_action r') REMOVED)
          && no_adjacent_removed rest
      end
  end.

Fixpoint kept_duration (rows : list row) : Z :=
  match rows with
  | [] => 0
  | r :: rest =>
      match row_action r with
      | KEPT => row_duration r + kept_duration rest
      | REMOVED => kept_duration rest
      end
  end.

Fixpoint count_removed_rows (rows : list row) : Z :=
  match rows with
  | [] => 0
  | r :: rest =>
      match row_action r with
      | REMOVED => 1 + count_removed_rows rest
      | KEPT => count_removed_rows rest
      end
  end.

(** ** whisper_handler.py: [get_speech_segments] *)

(** The transcription dictionary, as far as the program reads it: the value
    under ['segments'] when the key is present, each timed segment reduced to
    its ['start'] and ['end']. *)
Record Transcription : Type := mkTranscription {
  segments : option (list interval)
}.

(** The loop over [transcription['segments']]; [current] holds
    [(current_start, current_end)], [None] while both are [None]. *)
Fixpoint speech_loop (raw : list interval) (min_gap : Z)
    (segs : list interval) (current : option interval)
    : list interval * option interval :=
  match raw with
  | [] => (segs, current)
  | (start, end_) :: r =>
      match current with
      | None => speech_loop r min_gap segs (Some (start, end_))
      | Some (current_start, current_end) =>
          if start - current_end <=? min_gap
          then speech_loop r min_gap segs (Some (current_start, end_))
          else speech_loop r min_gap (segs ++ [(current_start, current_end)])
                           (Some (start, end_))
      end
  end.

Definition get_speech_segments (transcription : Transcription) (min_gap : Z)
    : list interval :=
  match segments transcription with
  | None => []
  | Some raw =>
      let '(segs, current) := speech_loop raw min_gap [] None in
      match current with
      | Some c => segs ++ [c]
      | None => segs
      end
  end.

(** [detect_speech_from_video]: [audio_extracted] is the result of
    [ffmpeg_handler.extract_audio], [transcription] that of
    [transcribe_audio] ([None] on an error or on an empty result). *)
Definition detect_speech_from_video (audio_extracted : bool)
    (transcription : option Transcription) (min_gap : Z) : list interval :=
  if negb audio_extracted then []
  else match transcription with
       | None => []
       | Some t => get_speech_segments t min_gap
       end.

(** A raw span lies within an interval. *)
Definition contained (x o : interval) : Prop :=
  istart o <= istart x /\ iend x <= iend o.

(** Raw spans in time order: starts and ends never decrease. *)
Definition time_ordered (raw : list interval) : Prop :=
  StronglySorted (fun a b => istart a <= istart b /\ iend a <= iend b) raw.

(** Every two neighbours are further apart than [min_gap]. *)
Definition gaps_exceed (min_gap : Z) (l : list interval) : Prop :=
  Sorted (fun a b => istart b - iend a > min_gap) l.

(** ** ffmpeg_handler.py: the cut planner *)

(** One entry of [filter_parts]: the [trim]/[atrim] pair labelled
    [v{i}]/[a{i}], with the two bounds printed into it. *)
Record trim : Type := mkTrim {
  trim_index : nat;
  trim_start : Z;
  trim_end : Z
}.

(** One per-clip extraction: [-ss padded_start ... -t duration] into the
    file [{base_name}_clip_{i:03d}.mp4]. *)
Record clip : Type := mkClip {
  clip_number : nat;
  clip_ss : Z;
  clip_t : Z
}.

(** A command handed to the external transcoder. *)
Inductive command : Type :=
| FilterComplex (parts : list trim) (concat_n : nat)
| ExtractClip (c : clip).

(** Progress messages of the two exporters and of the end of
    [process_video]; they reach the caller when a callback was given.  The
    progress lines [cut_video] copies from the transcoder's output while it
    runs are left out. *)
Inductive message : Type :=
| NoSegmentsToKeep
| CreatingVideo (n : nat)
| VideoCreated
| CutFailed
| ExportingClip (i total : nat)
| ErrorExportingClip (i total : nat)
| NoSegmentsDetected
| ProcessingComplete.

(** [for i, (start, end) in enumerate(keep_segments)] building
    [filter_parts]. *)
Fixpoint filter_loop (l : list interval) (i : nat) (padding : Z)
    (filter_parts : list trim) : list trim :=
  match l with
  | [] => filter_parts
  | (start, end_) :: r =>
      let padded_start := Z.max 0 (start - padding) in
      let padded_end := end_ + padding in
      filter_loop r (S i) padding (filter_parts ++ [mkTrim i padded_start padded_end])
  end.

(** [cut_video]: [run_ok] tells whether the transcoder process ran and
    returned code 0.  The result is the returned flag, the commands that
    were run and the messages. *)
Definition cut_video (keep_segments : list interval) (padding : Z)
    (run_ok : bool) : bool * list command * list message :=
  match keep_segments with
  | [] => (false, [], [NoSegmentsToKeep])
  | _ =>
      let filter_parts := filter_loop keep_segments 0 padding [] in
      let cmd := FilterComplex filter_parts (List.length keep_segments) in
      (run_ok, [cmd],
       [CreatingVideo (List.length keep_segments);
        if run_ok then VideoCreated else CutFailed])
  end.

(** [for i, (start, end) in enumerate(segments, 1)] of [export_clips];
    [clip_ok i] tells whether the run for clip [i] succeeded.  The variables
    are the created files (by clip number), and the commands and messages so
    far. *)
Fixpoint clips_loop (l : list interval) (i total : nat) (padding : Z)
    (clip_ok : nat -> bool)
    (output_files : list nat) (cmds : list command) (msgs : list message)
    : list nat * list command * list message :=
  match l with
  | [] => (output_files, cmds, msgs)
  | (start, end_) :: r =>
      let padded_start := Z.max 0 (start - padding) in
      let duration := (end_ + padding) - padded_start in
      let cmd := ExtractClip (mkClip i padded_start duration) in
      if clip_ok i
      then clips_loop r (S i) total padding clip_ok
             (output_files ++ [i]) (cmds ++ [cmd]) (msgs ++ [ExportingClip i total])
      else clips_loop r (S i) total padding clip_ok
             output_files (cmds ++ [cmd])
             (msgs ++ [ExportingClip i total; ErrorExportingClip i total])
  end.

Definition export_clips (segs : list interval) (padding : Z)
    (clip_ok : nat -> bool) : list nat * list command * list message :=
  clips_loop segs 1 (List.length segs) padding clip_ok [] [] [].

(** The instructions inside a list of commands. *)
Definition trims_of (cmds : list command) : list trim :=
  flat_map (fun c => match c with FilterComplex parts _ => parts | _ => [] end) cmds.

Definition clips_of (cmds : list command) : list clip :=
  flat_map (fun c => match c with ExtractClip c => [c] | _ => [] end) cmds.

(** ** processor.py: the reconciler and [process_video] *)

Record Config : Type := mkConfig {
  processing_mode : string;
  min_silence_duration : Z;
  padding_seconds : Z;
  export_merged : bool;
  export_clips_enabled : bool;
  export_timestamps : bool;
  export_xml : bool
}.

(** What the external collaborators answer during one run. *)
Record Env : Type := mkEnv {
  (** [get_video_info]: [None] without a ['format'] entry, [Some None] when
      the entry has no ['duration'], [Some (Some d)] otherwise. *)
  video_info : option (option Z);
  (** result of [ffmpeg.detect_silence] *)
  silence_detected : list interval;
  (** result of [ffmpeg_handler.extract_audio] *)
  audio_extracted : bool;
  (** result of [transcribe_audio] *)
  transcription : option Transcription;
  (** value of [self.cancelled] at its two checks *)
  cancelled_after_detect : bool;
  cancelled_after_merged : bool;
  (** outcomes of the external runs and of the two file writers *)
  cut_run_ok : bool;
  clip_run_ok : nat -> bool;
  report_file_ok : bool;
  xml_file_ok : bool
}.

Definition _get_duration (env : Env) : Z :=
  match video_info env with
  | Some (Some d) => d
  | Some None => 0
  | None => 0
  end.

Definition _detect_keep_segments (cfg : Config) (env : Env) (mode : string)
    : list interval :=
  if String.eqb mode "ffmpeg"%string then
    _invert_segments (silence_detected env) (_get_duration env)
  else if String.eqb mode "whisper"%string then
    detect_speech_from_video (audio_extracted env) (transcription env)
                             (min_silence_duration cfg)
  else if String.eqb mode "hybrid"%string then
    let silence_segments := silence_detected env in
    let speech_segments :=
      detect_speech_from_video (audio_extracted env) (transcription env)
                               (min_silence_duration cfg) in
    _merge_segments speech_segments silence_segments
  else [].

Inductive output_file : Type :=
| MergedFile
| ClipFile (i : nat)
| TimestampFile
| PremiereFile.

Record Results : Type := mkResults {
  success : bool;
  output_files : list output_file;
  original_duration : Z;
  final_duration : Z;
  segments_removed : Z;
  time_saved : Z;
  error : option string
}.

(** [process_video]: the result record, the commands given to the
    transcoder by the export phase, and the messages of that phase.  The
    body runs without raising; a Python exception would end it in the
    [except] branch with [success] still [False]. *)
Definition process_video (cfg : Config) (env : Env)
    : Results * list command * list message :=
  let original := match video_info env with
                  | Some (Some d) => d
                  | _ => 0
                  end in
  let mode := processing_mode cfg in
  let keep_segments := _detect_keep_segments cfg env mode in
  if cancelled_after_detect env then
    (mkResults false [] original 0 0 0 (Some "Processing cancelled by user"%string), [], [])
  else
  match keep_segments with
  | [] =>
    (mkResults false [] original 0 0 0 (Some "No segments to keep"%string), [],
     [NoSegmentsDetected])
  | _ =>
    let final := total_length keep_segments in
    let saved := original - final in
    let removed := _count_removed_segments keep_segments original in
    let '(files1, cmds1, msgs1) :=
      if export_merged cfg then
        let '(ok, cmds, msgs) :=
          cut_video keep_segments (padding_seconds cfg) (cut_run_ok env) in
        (if ok then [MergedFile] else [], cmds, msgs)
      else ([], [], []) in
    if cancelled_after_merged env then
      (mkResults false files1 original final removed saved
                 (Some "Processing cancelled by user"%string), cmds1, msgs1)
    else
    let '(files2, cmds2, msgs2) :=
      if export_clips_enabled cfg then
        let '(created, cmds, msgs) :=
          export_clips keep_segments (padding_seconds cfg) (clip_run_ok env) in
        (files1 ++ map ClipFile created, cmds1 ++ cmds, msgs1 ++ msgs)
      else (files1, cmds1, msgs1) in
    let files3 :=
      if export_timestamps cfg then
        if fst (generate_timestamp_report keep_segments original (report_file_ok env))
        then files2 ++ [TimestampFile] else files2
      else files2 in
    let files4 :=
      if export_xml cfg then
        if xml_file_ok env then files3 ++ [PremiereFile] else files3
      else files3 in
    (mkResults true files4 original final removed saved None, cmds2,
     msgs2 ++ [ProcessingComplete])
  end.

(** ** Auxiliary functions used in the proofs *)

(** The segments the inversion loop appends, and the final [last_end]. *)
Fixpoint gaps (l : list interval) (last_end : Z) : list interval :=
  match l with
  | [] => []
  | (start, end_) :: r =>
      (if start >? last_end then [(last_end, start)] else []) ++ gaps r end_
  end.

Fixpoint final_end (l : list interval) (last_end : Z) : Z :=
  match l with
  | [] => last_end
  | (_, end_) :: r => final_end r end_
  end.

(** Ascending in the order of tuples. *)
Definition tuple_sorted (l : list interval) : Prop :=
  StronglySorted (fun a b => tuple_le a b = true) l.

(** An interval inside [[0, D]]. *)
Definition within (D : Z) (iv : interval) : Prop :=
  0 <= istart iv /\ istart iv <= iend iv /\ iend iv <= D.

(** ** Sample configuration and collaborators

    [DEFAULT_CONFIG] of [utils/config.py], with times in milliseconds. *)
Definition default_config : Config :=
  {| processing_mode := "ffmpeg"%string;
     min_silence_duration := 2000;
     padding_seconds := 500;
     export_merged := true;
     export_clips_enabled := true;
     export_timestamps := true;
     export_xml := false |}.

(** Collaborators that all succeed, for a video whose probe answers
    [info], with the given detector results. *)
Definition quiet_env (info : option (option Z)) (silence : list interval)
    (tr : option Transcription) : Env :=
  {| video_info := info;
     silence_detected := silence;
     audio_extracted := true;
     transcription := tr;
     cancelled_after_detect := false;
     cancelled_after_merged := false;
     cut_run_ok := true;
     clip_run_ok := fun _ => true;
     report_file_ok := true;
     xml_file_ok := true |}.

(** The rows the report loop appends and the final [segment_num]. *)
Fixpoint report_rows (l : list interval) (segment_num last_end : Z) : list row :=
  match l with
  | [] => []
  | (start, end_) :: r =>
      if start >? last_end
      then mkRow Cut segment_num last_end start (start - last_end) REMOVED
           :: mkRow Clip (segment_num + 1) start end_ (end_ - start) KEPT
           :: report_rows r (segment_num + 1 + 1) end_
      else mkRow Clip segment_num start end_ (end_ - start) KEPT
           :: report_rows r (segment_num + 1) end_
  end.

Fixpoint report_num (l : list interval) (segment_num last_end : Z) : Z :=
  match l with
  | [] => segment_num
  | (start, end_) :: r =>
      if start >? last_end
      then report_num r (segment_num + 1 + 1) end_
      else report_num r (segment_num + 1) end_
  end.

(** Neighbouring keep segments separated by a positive gap. *)
Definition strictly_separated (l : list interval) : Prop :=
  Sorted (fun a b => iend a < istart b) l.

(** The intervals [get_speech_segments] returns once a first span has
    opened the current interval [cur]. *)
Fixpoint bridge (raw : list interval) (min_gap : Z) (cur : interval)
    : list interval :=
  match raw with
  | [] => [cur]
  | (start, end_) :: r =>
      if start - snd cur <=? min_gap
      then bridge r min_gap (fst cur, end_)
      else cur :: bridge r min_gap (start, end_)
  end.

(** The raw spans of the transcription the collaborators hand over. *)
Definition raw_segments (env : Env) : list interval :=
  match transcription env with
  | Some t => match segments t with
              | Some raw => raw
              | None => []
              end
  | None => []
  end.

(** The trims and clips the two planner loops append, numbered from [i]. *)
Fixpoint trims_from (l : list interval) (i : nat) (padding : Z) : list trim :=
  match l with
  | [] => []
  | (start, end_) :: r =>
      mkTrim i (Z.max 0 (start - padding)) (end_ + padding)
      :: trims_from r (S i) padding
  end.

Fixpoint clips_from (l : list interval) (i : nat) (padding : Z) : list clip :=
  match l with
  | [] => []
  | (start, end_) :: r =>
      mkClip i (Z.max 0 (start - padding))
             ((end_ + padding) - Z.max 0 (start - padding))
      :: clips_from r (S i) padding
  end.

(** The number of raw spans that start more than [min_gap] after the end of
    the span before them; [prev_end] is the end of the span before the
    list. *)
Fixpoint wide_gaps (min_gap prev_end : Z) (raw : list interval) : nat :=
  match raw with
  | [] => 0
  | (start, end_) :: r =>
      let wide := if start - prev_end <=? min_gap then 0%nat else 1%nat in
      (wide + wide_gaps min_gap end_ r)%nat
  end.

(** Rows numbered [n], [n + 1], ... in order. *)
Fixpoint numbered_from (n : Z) (rows : list row) : Prop :=
  match rows with
  | [] => True
  | r :: rest => row_number r = n /\ numbered_from (n + 1) rest
  end.

(** A row is labelled [Clip] when it is KEPT and [Cut] when it is REMOVED,
    and its duration is its end minus its start; a REMOVED row is not
    empty. *)
Definition row_consistent (r : row) : Prop :=
  row_duration r = row_end r - row_start r /\
  match row_action r with
  | KEPT => row_label_kind r = Clip
  | REMOVED => row_label_kind r = Cut /\ row_start r < row_end r
  end.

(** The ranges of the KEPT rows, in order. *)
Fixpoint kept_ranges (rows : list row) : list interval :=
  match rows with
  | [] => []
  | r :: rest =>
      match row_action r with
      | KEPT => (row_start r, row_end r) :: kept_ranges rest
      | REMOVED => kept_ranges rest
      end
  end.

Fixpoint removed_duration (rows : list row) : Z :=
  match rows with
  | [] => 0
  | r :: rest =>
      match row_action r with
      | REMOVED => row_duration r + removed_duration rest
      | KEPT => removed_duration rest
      end
  end.

(** ** processor.py: [_format_duration]

    The three numbers printed as [HH:MM:SS], each with at least two digits.
    [seconds] is the duration in units of time, [ticks] the number of units
    in a second; Python's [//] and [%] are the floor division and its
    remainder, and [int] is applied to whole numbers or to a non-negative
    remainder. *)
Definition _format_duration (ticks seconds : Z) : Z * Z * Z :=
  let hours := seconds / (3600 * ticks) in
  let minutes := (seconds mod (3600 * ticks)) / (60 * ticks) in
  let secs := (seconds mod (60 * ticks)) / ticks in
  (hours, minutes, secs).

(** The footage a list of trims asks for. *)
Fixpoint planned_length (trims : list trim) : Z :=
  match trims with
  | [] => 0
  | t :: rest => (trim_end t - trim_start t) + planned_length rest
  end.

(** The ranges of the REMOVED rows, in order. *)
Fixpoint removed_ranges (rows : list row) : list interval :=
  match rows with
  | [] => []
  | r :: rest =>
      match row_action r with
      | REMOVED => (row_start r, row_end r) :: removed_ranges rest
      | KEPT => removed_ranges rest
      end
  end.

(** What the inversion walk returns on a sorted list when it starts with
    [last_end] instead of 0. *)
Definition invert_from (l : list interval) (last_end D : Z) : list interval :=
  gaps l last_end ++
  (if final_end l last_end <? D then [(final_end l last_end, D)] else []).

(** A non-empty interval inside [[0, D]]. *)
Definition proper_within (D : Z) (iv : interval) : Prop :=
  0 <= istart iv /\ istart iv < iend iv /\ iend iv <= D.

(** ** ffmpeg_handler.py: the parser of [detect_silence]

    What the loop reads off one line of the transcoder's output: whether the
    line contains ['silence_start'] and what the search for
    [silence_start: ([\d.]+)] gives, and the same for ['silence_end']. *)
Inductive field : Type :=
| NoMatch                (* the pattern is not found *)
| Number (value : Z)     (* the matched text is a number *)
| BadNumber.             (* the matched text is refused by [float], as "1.2.3" *)

Record line : Type := mkLine {
  has_silence_start : bool;
  silence_start_field : field;
  has_silence_end : bool;
  silence_end_field : field
}.

(** The loop over the lines, with [silence_segments] and [silence_start];
    [None] when [float] raises. *)
Fixpoint silence_loop (lines : list line) (silence_segments : list interval)
    (silence_start : option Z) : option (list interval) :=
  match lines with
  | [] => Some silence_segments
  | l :: r =>
      if has_silence_start l then
        match silence_start_field l with
        | NoMatch => silence_loop r silence_segments silence_start
        | Number v => silence_loop r silence_segments (Some v)
        | BadNumber => None
        end
      else if has_silence_end l then
        match silence_start with
        | None => silence_loop r silence_segments silence_start
        | Some start =>
            match silence_end_field l with
            | NoMatch => silence_loop r silence_segments silence_start
            | Number v => silence_loop r (silence_segments ++ [(start, v)]) None
            | BadNumber => None
            end
        end
      else silence_loop r silence_segments silence_start
  end.

(** [detect_silence]: [stderr] holds the lines of the transcoder's output,
    [None] when running it raised; every exception ends in [return []]. *)
Definition detect_silence (stderr : option (list line)) : list interval :=
  match stderr with
  | None => []
  | Some lines =>
      match silence_loop lines [] None with
      | Some silence_segments => silence_segments
      | None => []
      end
  end.

(** The two lines the silence filter prints for one silence, and a line
    that mentions neither key. *)
Definition start_line (v : Z) : line := mkLine true (Number v) false NoMatch.
Definition end_line (v : Z) : line := mkLine false NoMatch true (Number v).
Definition other_line : line := mkLine false NoMatch false NoMatch.

Definition mentions_silence (l : line) : bool :=
  has_silence_start l || has_silence_end l.

(** The log of a list of silences, with [noise] lines that mention neither
    key before each of its lines. *)
Fixpoint silence_log (noise : nat) (l : list interval) : list line :=
  match l with
  | [] => []
  | (s, e) :: r =>
      repeat other_line noise ++ start_line s ::
      repeat other_line noise ++ end_line e :: silence_log noise r
  end.

(** ** processor.py: the markers of [generate_premiere_xml] *)

(** One [asset-clip] element: [name="Clip {i}"], [offset] and [duration]. *)
Record marker : Type := mkMarker {
  marker_number : nat;
  marker_offset : Z;
  marker_duration : Z
}.

(** [for i, (start, end) in enumerate(segments, 1)]. *)
Fixpoint markers_loop (l : list interval) (i : nat) (xml_content : list marker)
    : list marker :=
  match l with
  | [] => xml_content
  | (start, end_) :: r =>
      let duration := end_ - start in
      markers_loop r (S i) (xml_content ++ [mkMarker i start duration])
  end.

(** [generate_premiere_xml]: the returned flag and the markers written;
    [file_ok] tells whether writing the file raised no exception. *)
Definition generate_premiere_xml (segs : list interval) (file_ok : bool)
    : bool * list marker :=
  if file_ok then (true, markers_loop segs 1 []) else (false, []).

Definition marker_range (m : marker) : interval :=
  (marker_offset m, marker_offset m + marker_duration m).

(** ** whisper_handler.py: availability, model loading, transcription *)

Inductive Model : Type := LoadedModel.

(** The fields [model] and [_whisper_available] of a [WhisperHandler]. *)
Record WhisperHandler : Type := mkHandler {
  model : option Model;
  _whisper_available : option bool
}.

(** The handler made by [__init__]. *)
Definition new_handler : WhisperHandler := mkHandler None None.

(** What the outside answers during one call: whether [import whisper]
    succeeds, whether [whisper.load_model] returns, and what
    [model.transcribe] returns ([None] when it raises). *)
Record WhisperWorld : Type := mkWorld {
  import_ok : bool;
  load_ok : bool;
  transcribe_result : option Transcription
}.

Inductive whisper_event : Type :=
| LoadModel (ok : bool)
| Transcribe.

Definition is_whisper_available (h : WhisperHandler) (w : WhisperWorld)
    : bool * WhisperHandler :=
  match _whisper_available h with
  | Some b => (b, h)
  | None =>
      if import_ok w then (true, mkHandler (model h) (Some true))
      else (false, mkHandler (model h) (Some false))
  end.

Definition load_model (h : WhisperHandler) (w : WhisperWorld)
    : bool * WhisperHandler * list whisper_event :=
  let '(available, h1) := is_whisper_available h w in
  if negb available then (false, h1, [])
  else if import_ok w && load_ok w
       then (true, mkHandler (Some LoadedModel) (_whisper_available h1), [LoadModel true])
       else (false, h1, [LoadModel false]).

Definition transcribe_audio (h : WhisperHandler) (w : WhisperWorld)
    : option Transcription * WhisperHandler * list whisper_event :=
  let '(available, h1) := is_whisper_available h w in
  if negb available then (None, h1, [])
  else
    match model h1 with
    | None =>
        let '(loaded, h2, events) := load_model h1 w in
        if negb loaded then (None, h2, events)
        else (transcribe_result w, h2, events ++ [Transcribe])
    | Some _ => (transcribe_result w, h1, [Transcribe])
    end.

(** A series of [transcribe_audio] calls on one handler: the results, the
    handler left behind and all the events. *)
Fixpoint transcribe_all (h : WhisperHandler) (ws : list WhisperWorld)
    : list (option Transcription) * WhisperHandler * list whisper_event :=
  match ws with
  | [] => ([], h, [])
  | w :: rest =>
      let '(result, h1, events) := transcribe_audio h w in
      let '(results, h2, events') := transcribe_all h1 rest in
      (result :: results, h2, events ++ events')
  end.

Definition is_successful_load (e : whisper_event) : bool :=
  match e with
  | LoadModel true => true
  | _ => false
  end.

Definition is_transcribe (e : whisper_event) : bool :=
  match e with
  | Transcribe => true
  | _ => false
  end.

(** No transcription happens before a successful load. *)
Fixpoint loads_before_transcribing (loaded : bool) (events : list whisper_event)
    : bool :=
  match events with
  | [] => true
  | LoadModel ok :: rest => loads_before_transcribing (loaded || ok) rest
  | Transcribe :: rest => loaded && loads_before_transcribing loaded rest
  end.

(** * Properties *)

(** ** Facts about [sorted] *)

Lemma tuple_le_refl : forall a, tuple_le a a = true.
Proof.
  intros [s e]. unfold tuple_le. simpl.
  rewrite Z.eqb_refl, Z.leb_refl, orb_true_r. reflexivity.
Qed.

Lemma tuple_le_total : forall a b, tuple_le a b = false -> tuple_le b a = true.
Proof.
  intros [s e] [s' e']. unfold tuple_le. simpl. intros H.
  apply orb_false_iff in H. destruct H as [H1 H2].
  apply Z.ltb_ge in H1.
  destruct (Z.ltb_spec s' s) as [|Hge]; [reflexivity|].
  assert (s = s') by lia. subst s'.
  rewrite Z.eqb_refl in *. simpl in *.
  apply Z.leb_gt in H2. apply Z.leb_le. lia.
Qed.

Lemma tuple_le_trans : forall a b c,
  tuple_le a b = true -> tuple_le b c = true -> tuple_le a c = true.
Proof.
  intros [s e] [s' e'] [s'' e'']. unfold tuple_le. simpl. intros H1 H2.
  apply orb_true_iff in H1. apply orb_true_iff in H2. apply orb_true_iff.
  rewrite andb_true_iff, Z.ltb_lt, Z.eqb_eq, Z.leb_le in *.
  lia.
Qed.

Lemma tuple_le_start : forall a b, tuple_le a b = true -> istart a <= istart b.
Proof.
  intros [s e] [s' e']. unfold tuple_le, istart. simpl. intros H.
  apply orb_true_iff in H.
  rewrite andb_true_iff, Z.ltb_lt, Z.eqb_eq in H. lia.
Qed.

Lemma insert_perm : forall x l, Permutation (insert x l) (x :: l).
Proof.
  intros x l. induction l as [|y r IH]; simpl.
  - apply Permutation_refl.
  - destruct (tuple_le x y).
    + apply Permutation_refl.
    + eapply perm_trans; [apply perm_skip, IH | apply perm_swap].
Qed.

Lemma sorted_perm : forall l, Permutation (sorted l) l.
Proof.
  induction l as [|x r IH]; simpl.
  - constructor.
  - eapply perm_trans; [apply insert_perm | apply perm_skip, IH].
Qed.

Lemma insert_tuple_sorted : forall x l,
  tuple_sorted l -> tuple_sorted (insert x l).
Proof.
  unfold tuple_sorted. intros x l H. induction H as [|y r Hr IH Hy]; simpl.
  - repeat constructor.
  - destruct (tuple_le x y) eqn:E.
    + constructor.
      * constructor; assumption.
      * constructor; [assumption|].
        eapply Forall_impl; [|exact Hy].
        intros z Hz. eapply tuple_le_trans; eassumption.
    + constructor; [assumption|].
      eapply Permutation_Forall.
      * apply Permutation_sym, insert_perm.
      * constructor; [apply tuple_le_total; assumption | assumption].
Qed.

Lemma sorted_tuple_sorted : forall l, tuple_sorted (sorted l).
Proof.
  induction l as [|x r IH]; simpl.
  - constructor.
  - apply insert_tuple_sorted, IH.
Qed.

Lemma sorted_fixes_tuple_sorted : forall l, tuple_sorted l -> sorted l = l.
Proof.
  unfold tuple_sorted. intros l H. induction H as [|x r Hr IH Hx]; simpl.
  - reflexivity.
  - rewrite IH. destruct r as [|y r']; simpl.
    + reflexivity.
    + inversion Hx as [|? ? Hxy _]; subst. rewrite Hxy. reflexivity.
Qed.

Lemma tuple_sorted_by_start : forall l, tuple_sorted l -> sorted_by_start l.
Proof.
  unfold tuple_sorted, sorted_by_start. intros l H.
  induction H as [|x r Hr IH Hx]; constructor; try assumption.
  eapply Forall_impl; [|exact Hx]. intros z. apply tuple_le_start.
Qed.

Lemma sorted_well_formed : forall l,
  Forall well_formed l -> Forall well_formed (sorted l).
Proof.
  intros l H. eapply Permutation_Forall; [|exact H].
  apply Permutation_sym, sorted_perm.
Qed.

(** ** Generic list facts *)

Lemma StronglySorted_snoc : forall (R : interval -> interval -> Prop) l x,
  StronglySorted R l -> Forall (fun a => R a x) l -> StronglySorted R (l ++ [x]).
Proof.
  intros R l x H. induction H as [|y r Hr IH Hy]; simpl; intros Hx.
  - repeat constructor.
  - inversion Hx; subst. constructor.
    + apply IH. assumption.
    + apply Forall_app. split; [assumption|]. repeat constructor. assumption.
Qed.

(** ** The inversion loop *)

Lemma invert_loop_spec : forall l keep last_end,
  invert_loop l keep last_end = (keep ++ gaps l last_end, final_end l last_end).
Proof.
  induction l as [|[s e] r IH]; intros keep le; simpl.
  - rewrite app_nil_r. reflexivity.
  - rewrite IH. destruct (s >? le); simpl.
    + rewrite <- app_assoc. reflexivity.
    + reflexivity.
Qed.

Lemma _invert_segments_spec : forall sil D,
  sil <> [] ->
  _invert_segments sil D =
    gaps (sorted sil) 0 ++
    (if final_end (sorted sil) 0 <? D then [(final_end (sorted sil) 0, D)] else []).
Proof.
  intros sil D Hne. unfold _invert_segments.
  destruct sil as [|x r]; [congruence|].
  remember (sorted (x :: r)) as l.
  rewrite invert_loop_spec. simpl.
  destruct (final_end l 0 <? D).
  - reflexivity.
  - rewrite app_nil_r. reflexivity.
Qed.

(** After the loop has processed a prefix and then [(s, e)], [last_end] is
    [e]. *)
Lemma final_end_snoc : forall l s e last_end,
  final_end (l ++ [(s, e)]) last_end = e.
Proof.
  induction l as [|[s' e'] r IH]; intros s e le; simpl.
  - reflexivity.
  - apply IH.
Qed.

(** Every appended segment lies at or after a lower bound [m] of
    [last_end] and of the remaining starts, and is non-empty. *)
Lemma gaps_bounds : forall l last_end m,
  Forall well_formed l ->
  m <= last_end ->
  Forall (fun x => m <= istart x) l ->
  Forall (fun g => m <= istart g) (gaps l last_end).
Proof.
  induction l as [|[s e] r IH]; intros le m Hwf Hm Hl; simpl.
  - constructor.
  - inversion Hwf as [|? ? Hse Hwf']; subst.
    inversion Hl as [|? ? Hms Hl']; subst.
    unfold well_formed, istart, iend in *. simpl in *.
    apply Forall_app. split.
    + destruct (Z.gtb_spec s le); repeat constructor; simpl; lia.
    + apply IH; [assumption | lia | assumption].
Qed.

(** Every appended segment ends no later than the final [last_end]. *)
Lemma final_end_lower : forall l last_end m,
  Forall well_formed l ->
  m <= last_end ->
  Forall (fun x => m <= istart x) l ->
  m <= final_end l last_end.
Proof.
  induction l as [|[s e] r IH]; intros le m Hwf Hm Hl; simpl.
  - assumption.
  - inversion Hwf as [|? ? Hse Hwf']; subst.
    inversion Hl as [|? ? Hms Hl']; subst.
    unfold well_formed, istart, iend in *. simpl in *.
    apply IH; [assumption | lia | assumption].
Qed.

Lemma gaps_end_le_final : forall l last_end,
  Forall well_formed l ->
  sorted_by_start l ->
  Forall (fun g => iend g <= final_end l last_end) (gaps l last_end).
Proof.
  unfold sorted_by_start.
  induction l as [|[s e] r IH]; intros le Hwf Hs; simpl.
  - constructor.
  - inversion Hwf as [|? ? Hse Hwf']; subst.
    inversion Hs as [|? ? Hs' Hall]; subst.
    unfold well_formed, istart, iend in *. simpl in *.
    apply Forall_app. split.
    + destruct (s >? le); repeat constructor. simpl.
      apply final_end_lower; [assumption | lia | assumption].
    + apply IH; assumption.
Qed.

Lemma gaps_non_overlapping : forall l last_end,
  Forall well_formed l ->
  sorted_by_start l ->
  non_overlapping (gaps l last_end).
Proof.
  unfold sorted_by_start, non_overlapping.
  induction l as [|[s e] r IH]; intros le Hwf Hs; simpl.
  - constructor.
  - inversion Hwf as [|? ? Hse Hwf']; subst.
    inversion Hs as [|? ? Hs' Hall]; subst.
    unfold well_formed, istart, iend in *. simpl in *.
    destruct (s >? le); simpl.
    + constructor.
      * apply IH; assumption.
      * eapply Forall_impl;
          [| apply (gaps_bounds r e s); [assumption | lia | assumption]].
        simpl. intros g Hg. exact Hg.
    + apply IH; assumption.
Qed.

Lemma non_overlapping_sorted_by_start : forall l,
  Forall (fun g => istart g <= iend g) l ->
  non_overlapping l -> sorted_by_start l.
Proof.
  unfold non_overlapping, sorted_by_start. intros l Hwf H.
  induction H as [|x r Hr IH Hx]; constructor.
  - apply IH. inversion Hwf; assumption.
  - inversion Hwf; subst. eapply Forall_impl; [|exact Hx].
    simpl. intros z Hz. lia.
Qed.

(** Every appended segment is non-empty. *)
Lemma gaps_proper : forall l last_end,
  Forall (fun g => istart g < iend g) (gaps l last_end).
Proof.
  induction l as [|[s e] r IH]; intros le; simpl.
  - constructor.
  - apply Forall_app. split; [|apply IH].
    destruct (Z.gtb_spec s le); repeat constructor.
    unfold istart, iend. simpl. lia.
Qed.

Lemma invert_non_overlapping : forall sil D,
  Forall well_formed sil -> non_overlapping (_invert_segments sil D).
Proof.
  intros sil D Hwf. destruct sil as [|x r].
  - simpl. repeat constructor.
  - rewrite _invert_segments_spec by congruence.
    pose proof (sorted_well_formed _ Hwf) as Hwf'.
    pose proof (tuple_sorted_by_start _ (sorted_tuple_sorted (x :: r))) as Hs.
    remember (sorted (x :: r)) as l.
    destruct (final_end l 0 <? D).
    + apply StronglySorted_snoc.
      * apply gaps_non_overlapping; assumption.
      * eapply Forall_impl; [|apply gaps_end_le_final; eassumption].
        simpl. intros g Hg. exact Hg.
    + rewrite app_nil_r. apply gaps_non_overlapping; assumption.
Qed.

Lemma invert_segments_proper : forall sil D,
  sil <> [] ->
  Forall (fun g => istart g < iend g) (_invert_segments sil D).
Proof.
  intros sil D Hne. rewrite _invert_segments_spec by assumption.
  apply Forall_app. split; [apply gaps_proper|].
  destruct (Z.ltb_spec (final_end (sorted sil) 0) D); repeat constructor.
  unfold istart, iend. simpl. lia.
Qed.

Lemma invert_sorted_by_start : forall sil D,
  Forall well_formed sil -> sorted_by_start (_invert_segments sil D).
Proof.
  intros sil D Hwf. destruct sil as [|x r].
  - simpl. repeat constructor.
  - apply non_overlapping_sorted_by_start.
    + eapply Forall_impl; [|apply invert_segments_proper; congruence].
      simpl. intros g Hg. lia.
    + apply invert_non_overlapping. assumption.
Qed.

Lemma firstn_S_nth_error : forall (l : list interval) k x,
  nth_error l k = Some x -> firstn (S k) l = firstn k l ++ [x].
Proof.
  induction l as [|y r IH]; intros k x H.
  - destruct k; discriminate.
  - destruct k as [|k]; simpl in *.
    + inversion H. reflexivity.
    + f_equal. apply IH. assumption.
Qed.

(** ** Coverage of the inversion *)

Lemma covered_app : forall t l1 l2,
  covered t (l1 ++ l2) = covered t l1 || covered t l2.
Proof. intros. unfold covered. apply existsb_app. Qed.

Lemma covered_lower : forall t l m,
  Forall (fun x => m <= istart x) l -> covered t l = true -> m <= t.
Proof.
  intros t l m H. induction H as [|x r Hx Hr IH]; simpl; intros Hc.
  - discriminate.
  - apply orb_true_iff in Hc. destruct Hc as [Hc|Hc]; [|auto].
    unfold covers in Hc. apply andb_true_iff in Hc.
    rewrite Z.leb_le in Hc. lia.
Qed.

Lemma non_overlapping_tuple_sorted : forall l,
  Forall well_formed l -> non_overlapping l -> tuple_sorted l.
Proof.
  unfold non_overlapping, tuple_sorted. intros l Hwf H.
  induction H as [|x r Hr IH Hx]; constructor.
  - apply IH. inversion Hwf; assumption.
  - inversion Hwf as [|? ? Hxw Hrw]; subst.
    rewrite Forall_forall in *. intros y Hy.
    specialize (Hx y Hy). specialize (Hrw y Hy).
    destruct x as [s e], y as [s' e'].
    unfold well_formed, istart, iend, tuple_le in *. simpl in *.
    apply orb_true_iff. rewrite andb_true_iff, Z.ltb_lt, Z.eqb_eq, Z.leb_le.
    lia.
Qed.

(** On a sorted list of disjoint intervals that start at or after
    [last_end], the appended segments and the intervals together cover
    exactly the points from [last_end] up to the final [last_end]. *)
Lemma gaps_cover : forall l last_end,
  Forall well_formed l ->
  non_overlapping l ->
  Forall (fun x => last_end <= istart x) l ->
  last_end <= final_end l last_end /\
  forall t, (covered t (gaps l last_end) = true \/ covered t l = true) <->
            last_end <= t < final_end l last_end.
Proof.
  unfold non_overlapping.
  induction l as [|[s e] r IH]; intros le Hwf Hno Hlow.
  - simpl. split; [lia|]. intros t. split; [intros [H|H]; discriminate | lia].
  - inversion Hwf as [|? ? Hse Hwf']; subst.
    inversion Hno as [|? ? Hno' Hall]; subst.
    inversion Hlow as [|? ? Hles _]; subst.
    unfold well_formed, istart, iend in Hse, Hall, Hles. simpl in Hse, Hall, Hles.
    destruct (IH e Hwf' Hno' Hall) as [Hfe IHt].
    simpl final_end. split; [lia|].
    intros t. specialize (IHt t).
    simpl gaps. rewrite covered_app.
    change (covered t ((s, e) :: r)) with (covers t (s, e) || covered t r).
    rewrite orb_true_iff.
    assert (Hhead : covered t (if s >? le then [(le, s)] else []) = true <->
                    le <= t < s).
    { destruct (Z.gtb_spec s le); simpl.
      - unfold covers, istart, iend. simpl.
        rewrite orb_false_r, andb_true_iff, Z.leb_le, Z.ltb_lt. tauto.
      - split; [discriminate | lia]. }
    assert (Hmid : covers t (s, e) = true <-> s <= t < e).
    { unfold covers, istart, iend. simpl.
      rewrite andb_true_iff, Z.leb_le, Z.ltb_lt. tauto. }
    rewrite orb_true_iff. rewrite Hhead, Hmid.
    split.
    + intros [[H|H]|[H|H]]; try lia.
      * assert (e <= t < final_end r e) by tauto. lia.
      * assert (e <= t < final_end r e) by tauto. lia.
    + intros H. destruct (Z.lt_ge_cases t s); [left; left; lia|].
      destruct (Z.lt_ge_cases t e); [right; left; lia|].
      assert (Hc : covered t (gaps r e) = true \/ covered t r = true)
        by (apply IHt; lia).
      tauto.
Qed.

(** No point of an appended segment lies in one of the intervals. *)
Lemma gaps_miss : forall l last_end t,
  Forall well_formed l ->
  non_overlapping l ->
  covered t (gaps l last_end) = true ->
  covered t l = false.
Proof.
  unfold non_overlapping.
  induction l as [|[s e] r IH]; intros le t Hwf Hno Hc.
  - reflexivity.
  - inversion Hwf as [|? ? Hse Hwf']; subst.
    inversion Hno as [|? ? Hno' Hall]; subst.
    unfold well_formed, istart, iend in Hse, Hall. simpl in Hse, Hall.
    simpl in Hc. rewrite covered_app in Hc. apply orb_true_iff in Hc.
    change (covered t ((s, e) :: r)) with (covers t (s, e) || covered t r).
    apply orb_false_iff.
    destruct Hc as [Hc|Hc].
    + destruct (Z.gtb_spec s le); [|discriminate].
      simpl in Hc. rewrite orb_false_r in Hc.
      unfold covers, istart, iend in Hc. simpl in Hc.
      apply andb_true_iff in Hc. rewrite Z.leb_le, Z.ltb_lt in Hc.
      split.
      * unfold covers, istart, iend. simpl.
        apply andb_false_iff. left. apply Z.leb_gt. lia.
      * destruct (covered t r) eqn:E; [|reflexivity].
        apply (covered_lower t r e) in E; [lia|].
        eapply Forall_impl; [|exact Hall]. simpl. intros; assumption.
    + split.
      * pose proof (gaps_bounds r e e Hwf' (Z.le_refl e)) as Hb.
        assert (Hlow : Forall (fun x => e <= istart x) r)
          by (eapply Forall_impl; [|exact Hall]; simpl; intros; assumption).
        specialize (Hb Hlow).
        apply (covered_lower t _ e) in Hc; [|exact Hb].
        unfold covers, istart, iend. simpl.
        apply andb_false_iff. right. apply Z.ltb_ge. lia.
      * eapply IH; eassumption.
Qed.

Lemma final_end_upper : forall l last_end D,
  last_end <= D -> Forall (fun x => iend x <= D) l -> final_end l last_end <= D.
Proof.
  induction l as [|[s e] r IH]; intros le D Hle Hl; simpl.
  - assumption.
  - inversion Hl; subst. apply IH; assumption.
Qed.

Lemma final_end_in : forall l last_end,
  l <> [] -> exists x, In x l /\ iend x = final_end l last_end.
Proof.
  induction l as [|[s e] r IH]; intros le Hne; [congruence|].
  destruct r as [|y r'].
  - exists (s, e). simpl. auto.
  - destruct (IH e) as [x [Hin Hx]]; [congruence|].
    exists x. split; [right; assumption | exact Hx].
Qed.

Lemma covers_closed_of_covers : forall t iv,
  covers t iv = true -> covers_closed t iv = true.
Proof.
  intros t iv. unfold covers, covers_closed.
  rewrite !andb_true_iff, !Z.leb_le, Z.ltb_lt. lia.
Qed.

Lemma covered_closed_of_covered : forall t l,
  covered t l = true -> covered_closed t l = true.
Proof.
  intros t l. unfold covered, covered_closed. rewrite !existsb_exists.
  intros [x [Hin Hx]]. exists x. split; [assumption|].
  apply covers_closed_of_covers. assumption.
Qed.

Lemma covered_closed_within : forall t l D,
  Forall (within D) l -> covered_closed t l = true -> 0 <= t <= D.
Proof.
  intros t l D H. unfold covered_closed. rewrite existsb_exists.
  intros [x [Hin Hx]]. rewrite Forall_forall in H. specialize (H x Hin).
  unfold within in H. unfold covers_closed in Hx.
  rewrite andb_true_iff, !Z.leb_le in Hx. lia.
Qed.

Lemma within_well_formed : forall D l,
  Forall (within D) l -> Forall well_formed l.
Proof.
  intros D l H. eapply Forall_impl; [|exact H].
  unfold within, well_formed. intros; lia.
Qed.

(** The keep segments of a sorted, disjoint silence list inside [[0, D]]
    lie inside [[0, D]] too. *)
Lemma invert_within : forall sil D,
  0 <= D ->
  Forall (within D) sil ->
  non_overlapping sil ->
  Forall (within D) (_invert_segments sil D).
Proof.
  intros sil D HD Hin Hno.
  pose proof (within_well_formed _ _ Hin) as Hwf.
  destruct sil as [|x r].
  - simpl. repeat constructor; unfold istart, iend; simpl; lia.
  - rewrite _invert_segments_spec by congruence.
    rewrite (sorted_fixes_tuple_sorted (x :: r))
      by (apply non_overlapping_tuple_sorted; assumption).
    remember (x :: r) as l.
    assert (Hlow : Forall (fun y => 0 <= istart y) l)
      by (eapply Forall_impl; [|exact Hin]; unfold within; intros; lia).
    assert (Hup : Forall (fun y => iend y <= D) l)
      by (eapply Forall_impl; [|exact Hin]; unfold within; intros; lia).
    pose proof (gaps_bounds l 0 0 Hwf (Z.le_refl 0) Hlow) as Hb.
    pose proof (gaps_proper l 0) as Hp.
    pose proof (gaps_end_le_final l 0 Hwf
                  (non_overlapping_sorted_by_start l Hwf Hno)) as He.
    pose proof (final_end_upper l 0 D HD Hup) as Hf.
    pose proof (final_end_lower l 0 0 Hwf (Z.le_refl 0) Hlow) as Hf0.
    apply Forall_app. split.
    + rewrite Forall_forall in *. intros g Hg.
      specialize (Hb g Hg). specialize (Hp g Hg). specialize (He g Hg).
      unfold within. lia.
    + destruct (Z.ltb_spec (final_end l 0) D); repeat constructor;
        unfold istart, iend; simpl; lia.
Qed.

(** ** C4 *)

(** C4.  Inversion round trip: for a sorted list of pairwise disjoint
    silence intervals inside [[0, D]], a time point is covered by a keep
    segment of [_invert_segments] or by a silence interval exactly when it
    lies in [[0, D)], no time point is covered by both, and with end points
    included the keep segments and the silence intervals together cover
    exactly [[0, D]].  (A list element [(a, b)] covers the points
    [a <= t < b].) *)
Theorem inversion_round_trip : forall sil D t,
  Forall (within D) sil ->
  non_overlapping sil ->
  ((covered t (_invert_segments sil D) = true \/ covered t sil = true)
     <-> 0 <= t < D) /\
  ~ (covered t (_invert_segments sil D) = true /\ covered t sil = true) /\
  (covered_closed t (_invert_segments sil D ++ sil) = true <-> 0 <= t <= D).
Proof.
  intros sil D t Hin Hno.
  pose proof (within_well_formed _ _ Hin) as Hwf.
  destruct sil as [|x r].
  - simpl. unfold covers, covers_closed, istart, iend. simpl.
    rewrite !orb_false_r, !andb_true_iff, !Z.leb_le, Z.ltb_lt.
    split; [|split].
    + split; [intros [H|H]; [lia|discriminate] | intros; left; lia].
    + intros [_ H]. discriminate.
    + tauto.
  - assert (HD : 0 <= D).
    { inversion Hin as [|? ? Hx _]; subst. unfold within in Hx. lia. }
    pose proof (invert_within _ _ HD Hin Hno) as Hkeep.
    revert Hkeep.
    rewrite _invert_segments_spec by congruence.
    rewrite (sorted_fixes_tuple_sorted (x :: r))
      by (apply non_overlapping_tuple_sorted; assumption).
    remember (x :: r) as l. intros Hkeep.
    assert (Hlow : Forall (fun y => 0 <= istart y) l)
      by (eapply Forall_impl; [|exact Hin]; unfold within; intros; lia).
    assert (Hup : Forall (fun y => iend y <= D) l)
      by (eapply Forall_impl; [|exact Hin]; unfold within; intros; lia).
    destruct (gaps_cover l 0 Hwf Hno Hlow) as [Hf0 Hcov].
    pose proof (final_end_upper l 0 D HD Hup) as Hf.
    specialize (Hcov t).
    assert (Htail : covered t (if final_end l 0 <? D
                               then [(final_end l 0, D)] else []) = true
                    <-> final_end l 0 <= t < D).
    { destruct (Z.ltb_spec (final_end l 0) D); simpl.
      - unfold covers, istart, iend. simpl.
        rewrite orb_false_r, andb_true_iff, Z.leb_le, Z.ltb_lt. tauto.
      - split; [discriminate | lia]. }
    assert (Hhalf : (covered t (gaps l 0 ++
                       (if final_end l 0 <? D then [(final_end l 0, D)] else []))
                     = true \/ covered t l = true) <-> 0 <= t < D).
    { rewrite covered_app, orb_true_iff, Htail. split.
      - intros [[H|H]|H].
        + assert (0 <= t < final_end l 0) by tauto. lia.
        + lia.
        + assert (0 <= t < final_end l 0) by tauto. lia.
      - intros H. destruct (Z.lt_ge_cases t (final_end l 0)).
        + assert (Hc : covered t (gaps l 0) = true \/ covered t l = true)
            by (apply Hcov; lia).
          tauto.
        + left. right. lia. }
    split; [exact Hhalf|]. split.
    + rewrite covered_app, orb_true_iff, Htail. intros [[H|H] Hs].
      * rewrite (gaps_miss l 0 t Hwf Hno H) in Hs. discriminate.
      * assert (0 <= t < final_end l 0) by tauto. lia.
    + split.
      * apply covered_closed_within. apply Forall_app. split; assumption.
      * intros Ht. destruct (Z.lt_ge_cases t D) as [Hlt|Hge].
        -- unfold covered_closed. rewrite existsb_app.
           fold (covered_closed t (gaps l 0 ++
                   (if final_end l 0 <? D then [(final_end l 0, D)] else []))).
           fold (covered_closed t l).
           apply orb_true_iff.
           destruct (proj2 Hhalf (conj (proj1 Ht) Hlt)) as [H|H];
             [left | right]; apply covered_closed_of_covered; assumption.
        -- assert (t = D) by lia. subst t.
           unfold covered_closed. rewrite !existsb_app.
           destruct (Z.ltb_spec (final_end l 0) D) as [Hlt|Hge'].
           ++ simpl. unfold covers_closed at 2. unfold istart, iend. simpl.
              replace (final_end l 0 <=? D) with true
                by (symmetry; apply Z.leb_le; lia).
              rewrite Z.leb_refl. simpl.
              rewrite orb_true_r. reflexivity.
           ++ destruct (final_end_in l 0) as [y [Hy Hye]];
                [subst l; congruence|].
              apply orb_true_iff. right. apply existsb_exists.
              exists y. split; [assumption|].
              rewrite Forall_forall in Hin. specialize (Hin y Hy).
              unfold within in Hin. unfold covers_closed.
              apply andb_true_iff. rewrite !Z.leb_le. lia.
Qed.

(** The specification's example: silence [(10,15), (40,42)], [D = 60]. *)
Lemma inversion_round_trip_witness :
  _invert_segments [(10, 15); (40, 42)] 60 = [(0, 10); (15, 40); (42, 60)] /\
  ((covered 12 (_invert_segments [(10, 15); (40, 42)] 60) = true \/
    covered 12 [(10, 15); (40, 42)] = true) <-> 0 <= 12 < 60) /\
  ~ (covered 12 (_invert_segments [(10, 15); (40, 42)] 60) = true /\
     covered 12 [(10, 15); (40, 42)] = true) /\
  (covered_closed 12 (_invert_segments [(10, 15); (40, 42)] 60
                      ++ [(10, 15); (40, 42)]) = true <-> 0 <= 12 <= 60).
Proof.
  split; [reflexivity|].
  apply (inversion_round_trip [(10, 15); (40, 42)] 60 12).
  - repeat constructor; unfold istart, iend; simpl; lia.
  - repeat constructor; unfold istart, iend; simpl; lia.
Defined.

(** ** C1 *)

(** C1 (as the code has it).  In [_invert_segments] the walk sets
    [last_end] to the end [e] of the silence interval [(s, e)] it has just
    processed, whatever [last_end] was before; and for every list of silence
    intervals with [start <= end], overlapping and nested ones included, and
    every [total_duration], the keep segments returned are sorted ascending
    by start and pairwise non-overlapping. *)
Theorem invert_segments_sorted_non_overlapping : forall sil D,
  Forall well_formed sil ->
  (forall k s e, nth_error (sorted sil) k = Some (s, e) ->
     snd (invert_loop (firstn (S k) (sorted sil)) [] 0) = e) /\
  sorted_by_start (_invert_segments sil D) /\
  non_overlapping (_invert_segments sil D).
Proof.
  intros sil D Hwf. split; [|split].
  - intros k s e Hk. rewrite (firstn_S_nth_error _ _ _ Hk).
    rewrite invert_loop_spec. simpl. apply final_end_snoc.
  - apply invert_sorted_by_start. assumption.
  - apply invert_non_overlapping. assumption.
Qed.

(** A nested and an overlapping silence interval. *)
Lemma invert_segments_sorted_non_overlapping_witness :
  _invert_segments [(20, 30); (0, 10); (2, 3); (25, 40)] 50
    = [(3, 20); (40, 50)] /\
  (forall k s e,
     nth_error (sorted [(20, 30); (0, 10); (2, 3); (25, 40)]) k = Some (s, e) ->
     snd (invert_loop (firstn (S k) (sorted [(20, 30); (0, 10); (2, 3); (25, 40)]))
                      [] 0) = e) /\
  sorted_by_start (_invert_segments [(20, 30); (0, 10); (2, 3); (25, 40)] 50) /\
  non_overlapping (_invert_segments [(20, 30); (0, 10); (2, 3); (25, 40)] 50).
Proof.
  split; [reflexivity|].
  apply (invert_segments_sorted_non_overlapping
           [(20, 30); (0, 10); (2, 3); (25, 40)] 50).
  repeat constructor; unfold well_formed, istart, iend; simpl; lia.
Defined.

(** C1, counterexample.  With the nested silence intervals [(0,10)] and
    [(2,3)], [last_end] is 10 after the first and 3 after the second: it
    moves backward and is not [max 10 3]; the segment [(3, 20)] is kept
    although [(0, 10)] is silence. *)
Lemma invert_last_end_moves_backward :
  sorted [(0, 10); (2, 3)] = [(0, 10); (2, 3)] /\
  snd (invert_loop (firstn 1 (sorted [(0, 10); (2, 3)])) [] 0) = 10 /\
  snd (invert_loop (firstn 2 (sorted [(0, 10); (2, 3)])) [] 0) = 3 /\
  3 <> Z.max 10 3 /\
  _invert_segments [(0, 10); (2, 3)] 20 = [(3, 20)].
Proof.
  repeat split; try reflexivity. vm_compute. discriminate.
Qed.

(** ** C2 *)

Lemma overlaps_silence_existsb : forall s e silence,
  overlaps_silence s e silence = existsb (overlapb (s, e)) silence.
Proof.
  intros s e silence. induction silence as [|[a b] r IH]; simpl.
  - reflexivity.
  - unfold overlapb at 1. unfold istart, iend. simpl.
    destruct (negb ((e <? a) || (s >? b))); simpl; [reflexivity | exact IH].
Qed.

Lemma merge_loop_filter : forall speech silence keep,
  merge_loop speech silence keep =
  keep ++ filter (fun sp => negb (existsb (overlapb sp) silence)) speech.
Proof.
  induction speech as [|[s e] r IH]; intros silence keep; simpl.
  - rewrite app_nil_r. reflexivity.
  - rewrite IH, overlaps_silence_existsb.
    destruct (negb (existsb (overlapb (s, e)) silence)).
    + rewrite <- app_assoc. reflexivity.
    + reflexivity.
Qed.

Lemma overlapb_spec : forall sp v, overlapb sp v = true <-> overlap sp v.
Proof.
  intros sp v. unfold overlapb, overlap.
  rewrite negb_true_iff, orb_false_iff, Z.ltb_ge, Z.gtb_ltb, Z.ltb_ge. lia.
Qed.

(** C2.  In hybrid mode [_merge_segments] returns exactly the speech
    intervals, whole and in their original order, that overlap no silence
    interval, where a speech and a silence interval overlap unless the
    speech ends before the silence starts or starts after the silence ends
    (touching end points overlap). *)
Theorem merge_segments_keeps_non_overlapping_speech : forall speech silence,
  _merge_segments speech silence =
    filter (fun sp => negb (existsb (overlapb sp) silence)) speech /\
  (forall sp, In sp (_merge_segments speech silence) <->
     In sp speech /\ forall v, In v silence -> ~ overlap sp v) /\
  (forall sp v, In sp speech -> In v silence -> overlap sp v ->
     ~ In sp (_merge_segments speech silence)).
Proof.
  intros speech silence.
  assert (E : _merge_segments speech silence =
              filter (fun sp => negb (existsb (overlapb sp) silence)) speech).
  { unfold _merge_segments. rewrite merge_loop_filter. reflexivity. }
  assert (Hiff : forall sp, In sp (_merge_segments speech silence) <->
            In sp speech /\ forall v, In v silence -> ~ overlap sp v).
  { intros sp. rewrite E, filter_In, negb_true_iff.
    split; intros [Hin H]; (split; [assumption|]).
    - intros v Hv Ho. apply overlapb_spec in Ho.
      assert (existsb (overlapb sp) silence = true)
        by (apply existsb_exists; exists v; auto).
      congruence.
    - destruct (existsb (overlapb sp) silence) eqn:Ex; [|reflexivity].
      apply existsb_exists in Ex. destruct Ex as [v [Hv Ho]].
      apply overlapb_spec in Ho. exfalso. exact (H v Hv Ho). }
  split; [exact E|]. split; [exact Hiff|].
  intros sp v Hsp Hv Ho Hin. apply Hiff in Hin. destruct Hin as [_ H].
  exact (H v Hv Ho).
Qed.

(** The specification's example: both speech intervals overlap the silence
    interval, and a pair that only touches a silence interval is dropped. *)
Lemma merge_segments_keeps_non_overlapping_speech_witness :
  _merge_segments [(5, 20); (25, 45)] [(18, 27)] = [] /\
  _merge_segments [(30, 40); (0, 10); (12, 15)] [(10, 11)] = [(30, 40); (12, 15)] /\
  ~ In (0, 10) (_merge_segments [(30, 40); (0, 10); (12, 15)] [(10, 11)]).
Proof.
  split; [reflexivity|]. split; [reflexivity|].
  apply (proj2 (proj2 (merge_segments_keeps_non_overlapping_speech
                         [(30, 40); (0, 10); (12, 15)] [(10, 11)]))
               (0, 10) (10, 11)).
  - simpl. auto.
  - simpl. auto.
  - unfold overlap, istart, iend. simpl. lia.
Defined.

(** ** C6 *)

Lemma final_end_nonneg : forall l last_end,
  0 <= last_end -> Forall (fun x => 0 <= iend x) l -> 0 <= final_end l last_end.
Proof.
  induction l as [|[s e] r IH]; intros le Hle Hl; simpl.
  - assumption.
  - inversion Hl; subst. apply IH; assumption.
Qed.

(** C6 (as the code has it).  [_invert_segments] does not treat a zero
    [total_duration] apart: on an empty silence list it returns the single
    segment [(0, total_duration)], which for [total_duration = 0] is the
    zero-length segment [(0, 0)]; on a non-empty list of silence intervals
    with non-negative ends and [total_duration = 0] it appends no trailing
    segment and returns the keep list as the walk left it. *)
Theorem invert_segments_zero_duration : forall sil,
  Forall (fun iv => 0 <= iend iv) sil ->
  _invert_segments sil 0 =
    match sil with
    | [] => [(0, 0)]
    | _ => fst (invert_loop (sorted sil) [] 0)
    end.
Proof.
  intros sil Hnn. destruct sil as [|x r]; [reflexivity|].
  rewrite _invert_segments_spec by congruence.
  rewrite invert_loop_spec. cbn [fst].
  assert (H : 0 <= final_end (sorted (x :: r)) 0).
  { apply final_end_nonneg; [lia|].
    eapply Permutation_Forall; [|exact Hnn].
    apply Permutation_sym, sorted_perm. }
  destruct (Z.ltb_spec (final_end (sorted (x :: r)) 0) 0); [lia|].
  rewrite app_nil_r. reflexivity.
Qed.

(** A silence interval from 5 to 6 and a duration of 0: the segment before
    the silence is kept, and no trailing segment is added. *)
Lemma invert_segments_zero_duration_witness :
  _invert_segments [(5, 6)] 0 = fst (invert_loop (sorted [(5, 6)]) [] 0) /\
  _invert_segments [(5, 6)] 0 = [(0, 5)] /\
  _invert_segments [(0, 5)] 0 = [].
Proof.
  split; [|split; reflexivity].
  apply (invert_segments_zero_duration [(5, 6)]).
  repeat constructor; unfold iend; simpl; lia.
Defined.

(** C6, counterexample.  No silence detected and a duration of 0 (the probe
    gave no answer): the result is the one-element list [(0, 0)], not the
    empty list, in [_invert_segments] and in the reconciler's [ffmpeg]
    mode. *)
Lemma zero_duration_keeps_a_segment :
  _invert_segments [] 0 = [(0, 0)] /\
  _invert_segments [] 0 <> [] /\
  _get_duration (quiet_env None [] None) = 0 /\
  _detect_keep_segments default_config (quiet_env None [] None) "ffmpeg"
    = [(0, 0)].
Proof.
  repeat split; try reflexivity. discriminate.
Qed.

(** ** The report loop *)

Lemma report_loop_spec : forall l rows n last_end,
  report_loop l rows n last_end =
  (rows ++ report_rows l n last_end, report_num l n last_end, final_end l last_end).
Proof.
  induction l as [|[s e] r IH]; intros rows n le; simpl.
  - rewrite app_nil_r. reflexivity.
  - destruct (s >? le); rewrite IH; rewrite <- !app_assoc; reflexivity.
Qed.

Lemma timestamp_rows_spec : forall segs D,
  timestamp_rows segs D =
  report_rows (sorted segs) 1 0 ++
  (if final_end (sorted segs) 0 <? D
   then [mkRow Cut (report_num (sorted segs) 1 0) (final_end (sorted segs) 0) D
               (D - final_end (sorted segs) 0) REMOVED]
   else []).
Proof.
  intros segs D. unfold timestamp_rows. rewrite report_loop_spec. simpl.
  destruct (final_end (sorted segs) 0 <? D).
  - reflexivity.
  - rewrite app_nil_r. reflexivity.
Qed.

Lemma contiguous_from_app : forall rows1 rows2 a b,
  contiguous_from a rows1 = Some b ->
  contiguous_from a (rows1 ++ rows2) = contiguous_from b rows2.
Proof.
  induction rows1 as [|r rest IH]; intros rows2 a b H; simpl in *.
  - inversion H. reflexivity.
  - destruct ((row_start r =? a) && (row_start r <=? row_end r)); [|discriminate].
    apply IH. assumption.
Qed.

Lemma report_rows_contiguous : forall l n last_end,
  Forall well_formed l ->
  non_overlapping l ->
  Forall (fun x => last_end <= istart x) l ->
  contiguous_from last_end (report_rows l n last_end) = Some (final_end l last_end).
Proof.
  unfold non_overlapping.
  induction l as [|[s e] r IH]; intros n le Hwf Hno Hlow; simpl.
  - reflexivity.
  - inversion Hwf as [|? ? Hse Hwf']; subst.
    inversion Hno as [|? ? Hno' Hall]; subst.
    inversion Hlow as [|? ? Hles _]; subst.
    unfold well_formed, istart, iend in Hse, Hall, Hles. simpl in Hse, Hall, Hles.
    destruct (Z.gtb_spec s le); simpl.
    + rewrite !Z.eqb_refl. simpl.
      replace (le <=? s) with true by (symmetry; apply Z.leb_le; lia).
      replace (s <=? e) with true by (symmetry; apply Z.leb_le; lia).
      apply IH; assumption.
    + assert (s = le) by lia. subst s.
      rewrite Z.eqb_refl. simpl.
      replace (le <=? e) with true by (symmetry; apply Z.leb_le; lia).
      apply IH; assumption.
Qed.

Lemma report_rows_kept_duration : forall l n last_end,
  kept_duration (report_rows l n last_end) = total_length l.
Proof.
  induction l as [|[s e] r IH]; intros n le; simpl.
  - reflexivity.
  - destruct (s >? le); simpl; rewrite IH; reflexivity.
Qed.

Lemma kept_duration_app : forall rows1 rows2,
  kept_duration (rows1 ++ rows2) = kept_duration rows1 + kept_duration rows2.
Proof.
  induction rows1 as [|r rest IH]; intros rows2; simpl.
  - reflexivity.
  - rewrite IH. destruct (row_action r); lia.
Qed.

Lemma total_length_perm : forall l l',
  Permutation l l' -> total_length l = total_length l'.
Proof.
  intros l l' P. induction P as [| [s e] l l' P IH | [s e] [s' e'] l | l l' l'' P1 IH1 P2 IH2];
    simpl; lia.
Qed.

(** The KEPT rows carry the durations of the segments, for every list. *)
Lemma timestamp_rows_kept_duration : forall segs D,
  kept_duration (timestamp_rows segs D) = total_length segs.
Proof.
  intros segs D. rewrite timestamp_rows_spec, kept_duration_app.
  rewrite report_rows_kept_duration.
  rewrite (total_length_perm _ _ (sorted_perm segs)).
  destruct (final_end (sorted segs) 0 <? D); simpl; lia.
Qed.

Lemma no_adjacent_removed_cons2 : forall a b rest,
  no_adjacent_removed (a :: b :: rest) =
  negb (action_eqb (row_action a) REMOVED && action_eqb (row_action b) REMOVED)
  && no_adjacent_removed (b :: rest).
Proof. reflexivity. Qed.

Lemma alternating_cons2 : forall a b rest,
  alternating (a :: b :: rest) =
  negb (action_eqb (row_action a) (row_action b)) && alternating (b :: rest).
Proof. reflexivity. Qed.

(** After a KEPT row, the rows of the rest of the walk and an optional
    closing REMOVED row never put two REMOVED rows side by side. *)
Lemma report_rows_no_adjacent_removed : forall l n last_end k tail,
  row_action k = KEPT ->
  (tail = [] \/ exists c, tail = [c]) ->
  no_adjacent_removed (k :: report_rows l n last_end ++ tail) = true.
Proof.
  induction l as [|[s e] r IH]; intros n le k tail Hk Htail.
  - simpl. destruct Htail as [->|[c ->]]; [reflexivity|].
    rewrite Hk. reflexivity.
  - simpl report_rows. destruct (s >? le).
    + rewrite <- !app_comm_cons, !no_adjacent_removed_cons2.
      rewrite IH by (auto; reflexivity).
      rewrite Hk. reflexivity.
    + rewrite <- !app_comm_cons, !no_adjacent_removed_cons2.
      rewrite IH by (auto; reflexivity).
      rewrite Hk. reflexivity.
Qed.

(** With a positive gap before every segment, the rows after a KEPT row
    alternate, up to and including a closing REMOVED row. *)
Lemma report_rows_alternating : forall l n last_end k tail,
  row_action k = KEPT ->
  (tail = [] \/ exists c, row_action c = REMOVED /\ tail = [c]) ->
  strictly_separated l ->
  Forall (fun x => last_end < istart x) (firstn 1 l) ->
  alternating (k :: report_rows l n last_end ++ tail) = true.
Proof.
  unfold strictly_separated.
  induction l as [|[s e] r IH]; intros n le k tail Hk Htail Hsep Hlow.
  - simpl. destruct Htail as [->|[c [Hc ->]]]; [reflexivity|].
    rewrite Hk, Hc. reflexivity.
  - simpl in Hlow. inversion Hlow as [|? ? Hles _]; subst.
    unfold istart in Hles. simpl in Hles.
    inversion Hsep as [|? ? Hsep' Hhd]; subst.
    simpl report_rows.
    destruct (Z.gtb_spec s le); [|lia].
    rewrite <- !app_comm_cons, !alternating_cons2.
    rewrite IH; auto.
    + rewrite Hk. reflexivity.
    + destruct r as [|y r']; simpl; constructor; [|constructor].
      inversion Hhd; subst. unfold iend in *. simpl in *. assumption.
Qed.

(** ** C5 *)

(** C5 (as the code has it).  For a duration [D >= 0] and a sorted,
    non-overlapping keep-segment list inside [[0, D]], the rows of the
    timestamp report tile [[0, D]]: the first starts at 0, each starts where
    the one before ends, none runs backward, the last ends at [D].  No two
    REMOVED rows are neighbours; the rows alternate between REMOVED and KEPT
    when neighbouring keep segments are separated by a positive gap; and the
    durations of the KEPT rows add up to the durations of the keep
    segments. *)
Theorem timestamp_rows_partition : forall keep D,
  0 <= D ->
  Forall (within D) keep ->
  non_overlapping keep ->
  partitions (timestamp_rows keep D) D /\
  no_adjacent_removed (timestamp_rows keep D) = true /\
  (strictly_separated keep -> alternating (timestamp_rows keep D) = true) /\
  kept_duration (timestamp_rows keep D) = total_length keep.
Proof.
  intros keep D HD Hin Hno.
  pose proof (within_well_formed _ _ Hin) as Hwf.
  split; [|split; [|split]]; [| | |apply timestamp_rows_kept_duration].
  - unfold partitions. rewrite timestamp_rows_spec.
    rewrite (sorted_fixes_tuple_sorted keep)
      by (apply non_overlapping_tuple_sorted; assumption).
    assert (Hlow : Forall (fun y => 0 <= istart y) keep)
      by (eapply Forall_impl; [|exact Hin]; unfold within; intros; lia).
    assert (Hup : Forall (fun y => iend y <= D) keep)
      by (eapply Forall_impl; [|exact Hin]; unfold within; intros; lia).
    rewrite (contiguous_from_app _ _ 0 (final_end keep 0))
      by (apply report_rows_contiguous; assumption).
    pose proof (final_end_upper keep 0 D HD Hup) as Hf.
    destruct (Z.ltb_spec (final_end keep 0) D); simpl.
    + rewrite Z.eqb_refl.
      replace (final_end keep 0 <=? D) with true by (symmetry; apply Z.leb_le; lia).
      reflexivity.
    + f_equal. lia.
  - rewrite timestamp_rows_spec.
    remember (sorted keep) as l.
    set (tail := if final_end l 0 <? D
                 then [mkRow Cut (report_num l 1 0) (final_end l 0) D
                             (D - final_end l 0) REMOVED]
                 else []).
    assert (Htail : tail = [] \/ exists c, tail = [c]).
    { subst tail. destruct (final_end l 0 <? D); [right; eexists; reflexivity | left; reflexivity]. }
    clearbody tail.
    destruct l as [|[s e] r].
    + simpl. destruct Htail as [->|[c ->]]; reflexivity.
    + simpl report_rows. destruct (s >? 0).
      * rewrite <- !app_comm_cons, no_adjacent_removed_cons2.
        rewrite report_rows_no_adjacent_removed by (auto; reflexivity).
        reflexivity.
      * rewrite <- app_comm_cons.
        apply report_rows_no_adjacent_removed; auto.
  - intros Hsep. rewrite timestamp_rows_spec.
    rewrite (sorted_fixes_tuple_sorted keep)
      by (apply non_overlapping_tuple_sorted; assumption).
    set (tail := if final_end keep 0 <? D
                 then [mkRow Cut (report_num keep 1 0) (final_end keep 0) D
                             (D - final_end keep 0) REMOVED]
                 else []).
    assert (Htail : tail = [] \/ exists c, row_action c = REMOVED /\ tail = [c]).
    { subst tail. destruct (final_end keep 0 <? D);
        [right; eexists; split; [|reflexivity]; reflexivity | left; reflexivity]. }
    clearbody tail.
    destruct keep as [|[s e] r].
    + simpl. destruct Htail as [->|[c [_ ->]]]; reflexivity.
    + assert (Hr : Forall (fun x => e < istart x) (firstn 1 r)).
      { unfold strictly_separated in Hsep. inversion Hsep as [|? ? _ Hhd]; subst.
        destruct r as [|y r']; simpl; constructor; [|constructor].
        inversion Hhd; subst. unfold iend in *. simpl in *. assumption. }
      assert (Hsep' : strictly_separated r).
      { unfold strictly_separated in *. inversion Hsep; assumption. }
      simpl report_rows. destruct (s >? 0).
      * rewrite <- !app_comm_cons, alternating_cons2.
        rewrite report_rows_alternating by (auto; reflexivity).
        reflexivity.
      * rewrite <- app_comm_cons.
        apply report_rows_alternating; auto.
Qed.

(** The specification's example: keep [(0,10), (15,40)], [D = 60]. *)
Lemma timestamp_rows_partition_witness :
  timestamp_rows [(0, 10); (15, 40)] 60 =
    [mkRow Clip 1 0 10 10 KEPT; mkRow Cut 2 10 15 5 REMOVED;
     mkRow Clip 3 15 40 25 KEPT; mkRow Cut 4 40 60 20 REMOVED] /\
  partitions (timestamp_rows [(0, 10); (15, 40)] 60) 60 /\
  no_adjacent_removed (timestamp_rows [(0, 10); (15, 40)] 60) = true /\
  (strictly_separated [(0, 10); (15, 40)] ->
   alternating (timestamp_rows [(0, 10); (15, 40)] 60) = true) /\
  kept_duration (timestamp_rows [(0, 10); (15, 40)] 60)
    = total_length [(0, 10); (15, 40)].
Proof.
  split; [reflexivity|].
  apply (timestamp_rows_partition [(0, 10); (15, 40)] 60).
  - lia.
  - repeat constructor; unfold istart, iend; simpl; lia.
  - repeat constructor; unfold istart, iend; simpl; lia.
Defined.

(** C5, counterexample.  Two keep segments that touch give two KEPT rows
    side by side, so the rows do not alternate; and a keep segment that
    reaches past the duration (here the duration is unknown, 0) gives rows
    that end past it, so they do not tile [[0, D]]. *)
Lemma timestamp_rows_not_alternating :
  timestamp_rows [(0, 10); (10, 20)] 20 =
    [mkRow Clip 1 0 10 10 KEPT; mkRow Clip 2 10 20 10 KEPT] /\
  alternating (timestamp_rows [(0, 10); (10, 20)] 20) = false /\
  timestamp_rows [(5, 20)] 0 =
    [mkRow Cut 1 0 5 5 REMOVED; mkRow Clip 2 5 20 15 KEPT] /\
  ~ partitions (timestamp_rows [(5, 20)] 0) 0.
Proof.
  repeat split. unfold partitions. vm_compute. discriminate.
Qed.

(** ** Gap bridging *)

Lemma speech_loop_bridge : forall raw mg segs cur,
  (let '(segs', current) := speech_loop raw mg segs (Some cur) in
   match current with
   | Some c => segs' ++ [c]
   | None => segs'
   end) = segs ++ bridge raw mg cur.
Proof.
  induction raw as [|[s e] r IH]; intros mg segs [cs ce]; simpl.
  - reflexivity.
  - destruct (s - ce <=? mg).
    + apply IH.
    + rewrite IH, <- app_assoc. reflexivity.
Qed.

Lemma get_speech_segments_bridge : forall raw mg,
  get_speech_segments (mkTranscription (Some raw)) mg =
  match raw with
  | [] => []
  | x :: r => bridge r mg x
  end.
Proof.
  intros raw mg. unfold get_speech_segments. simpl segments.
  destruct raw as [|[s e] r].
  - reflexivity.
  - simpl speech_loop. apply (speech_loop_bridge r mg [] (s, e)).
Qed.

(** The first interval returned starts where the current one started. *)
Lemma bridge_head_start : forall raw mg cs ce,
  exists e' rest, bridge raw mg (cs, ce) = (cs, e') :: rest.
Proof.
  induction raw as [|[s e] r IH]; intros mg cs ce; simpl.
  - eauto.
  - destruct (s - ce <=? mg); [apply IH | eauto].
Qed.

Lemma bridge_gaps_exceed : forall raw mg cur,
  gaps_exceed mg (bridge raw mg cur).
Proof.
  unfold gaps_exceed.
  induction raw as [|[s e] r IH]; intros mg [cs ce]; simpl.
  - repeat constructor.
  - destruct (Z.leb_spec (s - ce) mg).
    + apply IH.
    + constructor; [apply IH|].
      destruct (bridge_head_start r mg s e) as [e' [rest ->]].
      constructor. unfold istart, iend. simpl. lia.
Qed.

(** With the raw spans in time order, the first interval returned ends no
    earlier than the current one. *)
Lemma bridge_head_end : forall raw mg cs ce,
  time_ordered raw ->
  Forall (fun z => ce <= iend z) raw ->
  exists e' rest, bridge raw mg (cs, ce) = (cs, e') :: rest /\ ce <= e'.
Proof.
  unfold time_ordered.
  induction raw as [|[s e] r IH]; intros mg cs ce Hord Hlow; simpl.
  - exists ce, []. split; [reflexivity | lia].
  - inversion Hord as [|? ? Hord' Hall]; subst.
    inversion Hlow as [|? ? Hce _]; subst.
    unfold iend in Hce. simpl in Hce.
    destruct (s - ce <=? mg).
    + destruct (IH mg cs e Hord') as [e' [rest [E He]]].
      * eapply Forall_impl; [|exact Hall]. simpl. intros z [_ Hz]. exact Hz.
      * exists e', rest. split; [exact E | lia].
    + exists ce, (bridge r mg (s, e)). split; [reflexivity | lia].
Qed.

(** [x] is the raw span processed last: the current interval starts no
    later than [x] and ends where [x] ends. *)
Lemma bridge_adjacent : forall raw mg cs ce x,
  time_ordered (x :: raw) ->
  cs <= istart x -> iend x = ce ->
  (exists o, In o (bridge raw mg (cs, ce)) /\ contained x o) /\
  (forall pre a b post, x :: raw = pre ++ a :: b :: post ->
     istart b - iend a <= mg ->
     exists o, In o (bridge raw mg (cs, ce)) /\ contained a o /\ contained b o).
Proof.
  unfold time_ordered.
  induction raw as [|[s e] r IH]; intros mg cs ce x Hord Hcs Hce.
  - split.
    + exists (cs, ce). simpl. split; [auto|].
      unfold contained, istart, iend in *. simpl. lia.
    + intros pre a b post E. exfalso.
      destruct pre as [|p [|q pre']]; simpl in E; inversion E.
  - unfold iend in Hce. subst ce.
    inversion Hord as [|? ? Hord' Hall]; subst.
    inversion Hall as [|? ? Hx Hall']; subst.
    unfold istart, iend in Hx. simpl in Hx.
    assert (Hlow : Forall (fun z => e <= iend z) r).
    { inversion Hord' as [|? ? _ Hr]; subst.
      eapply Forall_impl; [|exact Hr]. simpl. intros z [_ Hz]. exact Hz. }
    assert (Hord_r : StronglySorted
              (fun a b => istart a <= istart b /\ iend a <= iend b) r)
      by (inversion Hord'; assumption).
    cbn [bridge fst snd].
    destruct (Z.leb_spec (s - snd x) mg) as [Hgap|Hgap].
    + (* merged *)
      destruct (IH mg cs e (s, e) Hord') as [IH1 IH2];
        [unfold istart; simpl; unfold istart in Hcs; lia | reflexivity |].
      destruct (bridge_head_end r mg cs e Hord_r Hlow) as [e' [rest [E He]]].
      assert (Hxo : contained x (cs, e')).
      { unfold contained, istart, iend in *. simpl. lia. }
      split.
      * exists (cs, e'). rewrite E. split; [left; reflexivity | exact Hxo].
      * intros pre a b post Epre Hab.
        destruct pre as [|p pre'].
        -- simpl in Epre. inversion Epre; subst.
           exists (cs, e'). rewrite E. split; [left; reflexivity|].
           split; [exact Hxo|].
           unfold contained, istart, iend in *. simpl. lia.
        -- simpl in Epre. inversion Epre as [[Ep Er]].
           apply (IH2 pre' a b post); assumption.
    + (* a new interval *)
      destruct (IH mg s e (s, e) Hord') as [IH1 IH2];
        [unfold istart; simpl; lia | reflexivity |].
      split.
      * exists (cs, snd x). split; [left; reflexivity|].
        unfold contained, istart, iend in *. simpl. lia.
      * intros pre a b post Epre Hab.
        destruct pre as [|p pre'].
        -- simpl in Epre. inversion Epre; subst.
           unfold istart, iend in Hab. simpl in Hab. lia.
        -- simpl in Epre. inversion Epre as [[Ep Er]].
           destruct (IH2 pre' a b post Er Hab) as [o [Ho Hc]].
           exists o. split; [right; exact Ho | exact Hc].
Qed.

Lemma bridge_contains : forall raw mg cs ce x,
  time_ordered (x :: raw) ->
  cs <= istart x -> iend x = ce ->
  forall y, In y (x :: raw) ->
  exists o, In o (bridge raw mg (cs, ce)) /\ contained y o.
Proof.
  induction raw as [|[s e] r IH]; intros mg cs ce x Hord Hcs Hce y Hy.
  - destruct Hy as [<-|[]].
    apply (bridge_adjacent [] mg cs ce x Hord Hcs Hce).
  - destruct Hy as [<-|Hy].
    + apply (bridge_adjacent ((s, e) :: r) mg cs ce x Hord Hcs Hce).
    + unfold iend in Hce. subst ce.
      assert (Hord' : time_ordered ((s, e) :: r))
        by (unfold time_ordered in *; inversion Hord; assumption).
      assert (Hx : istart x <= s).
      { unfold time_ordered in Hord. inversion Hord as [|? ? _ Hall]; subst.
        inversion Hall as [|? ? Hh _]; subst. unfold istart in *. simpl in Hh. lia. }
      cbn [bridge fst snd].
      destruct (s - snd x <=? mg).
      * apply (IH mg cs e (s, e) Hord'); [unfold istart; simpl; lia | reflexivity | exact Hy].
      * destruct (IH mg s e (s, e) Hord' (Z.le_refl s) eq_refl y Hy) as [o [Ho Hc]].
        exists o. split; [right; exact Ho | exact Hc].
Qed.

Lemma bridge_well_formed : forall raw mg cs ce,
  cs <= ce ->
  Forall well_formed raw ->
  sorted_by_start raw ->
  Forall (fun z => cs <= istart z) raw ->
  Forall well_formed (bridge raw mg (cs, ce)).
Proof.
  unfold sorted_by_start.
  induction raw as [|[s e] r IH]; intros mg cs ce Hc Hwf Hs Hlow; simpl.
  - repeat constructor. exact Hc.
  - inversion Hwf as [|? ? Hse Hwf']; subst.
    inversion Hs as [|? ? Hs' Hall]; subst.
    inversion Hlow as [|? ? Hcs Hlow']; subst.
    unfold well_formed, istart, iend in Hse, Hcs. simpl in Hse, Hcs.
    destruct (s - ce <=? mg).
    + apply IH; [lia | assumption | assumption | assumption].
    + constructor; [exact Hc|].
      apply IH; [lia | assumption | assumption |].
      eapply Forall_impl; [|exact Hall]. simpl. unfold istart. simpl. intros; assumption.
Qed.

Lemma gaps_exceed_non_overlapping : forall mg l,
  0 <= mg -> Forall well_formed l -> gaps_exceed mg l -> non_overlapping l.
Proof.
  unfold gaps_exceed, non_overlapping. intros mg l Hmg Hwf H.
  induction H as [|x r Hr IH Hhd]; constructor.
  - apply IH. inversion Hwf; assumption.
  - inversion Hwf as [|? ? Hx Hwf']; subst.
    specialize (IH Hwf').
    destruct Hhd as [|y r' Hxy]; constructor.
    + lia.
    + inversion IH as [|? ? _ Hall]; subst.
      inversion Hwf' as [|? ? Hy _]; subst. unfold well_formed in Hy.
      eapply Forall_impl; [|exact Hall]. simpl. intros z Hz. lia.
Qed.

Lemma get_speech_segments_sorted : forall raw mg,
  0 <= mg ->
  Forall well_formed raw ->
  sorted_by_start raw ->
  sorted_by_start (get_speech_segments (mkTranscription (Some raw)) mg) /\
  non_overlapping (get_speech_segments (mkTranscription (Some raw)) mg).
Proof.
  intros raw mg Hmg Hwf Hs. rewrite get_speech_segments_bridge.
  destruct raw as [|[s e] r].
  - split; constructor.
  - assert (Hout : Forall well_formed (bridge r mg (s, e))).
    { inversion Hwf; subst. unfold sorted_by_start in Hs. inversion Hs; subst.
      apply bridge_well_formed; assumption. }
    assert (Hno : non_overlapping (bridge r mg (s, e))).
    { apply (gaps_exceed_non_overlapping mg); [assumption | assumption |].
      apply bridge_gaps_exceed. }
    split; [|exact Hno].
    apply non_overlapping_sorted_by_start; assumption.
Qed.

Lemma sorted_by_start_b : forall l, sorted_by_start l -> sorted_by_startb l = true.
Proof.
  unfold sorted_by_start, sorted_by_startb. intros l H.
  induction H as [|x r Hr IH Hx]; simpl.
  - reflexivity.
  - rewrite IH, andb_true_r. apply forallb_forall.
    rewrite Forall_forall in Hx. intros y Hy. apply Z.leb_le. auto.
Qed.

(** ** C9 *)

(** C9 (as the code has it).  In the list [get_speech_segments] returns,
    every two neighbouring intervals are separated by a gap greater than
    [min_gap], for every raw segment list and every [min_gap].  When the raw
    spans are in time order (starts and ends never decrease), every raw span
    lies within one of the returned intervals, and two neighbouring raw
    spans separated by a gap of at most [min_gap] lie within the same
    returned interval. *)
Theorem speech_segments_gap_bridging : forall raw min_gap,
  gaps_exceed min_gap (get_speech_segments (mkTranscription (Some raw)) min_gap) /\
  (time_ordered raw ->
   (forall x, In x raw ->
      exists o, In o (get_speech_segments (mkTranscription (Some raw)) min_gap) /\
                contained x o) /\
   (forall pre a b post, raw = pre ++ a :: b :: post ->
      istart b - iend a <= min_gap ->
      exists o, In o (get_speech_segments (mkTranscription (Some raw)) min_gap) /\
                contained a o /\ contained b o)).
Proof.
  intros raw mg. rewrite get_speech_segments_bridge.
  destruct raw as [|[s e] r].
  - split; [constructor|]. intros _. split.
    + intros x [].
    + intros pre a b post E. destruct pre; discriminate.
  - split; [apply bridge_gaps_exceed|]. intros Hord. split.
    + intros x Hx.
      apply (bridge_contains r mg s e (s, e) Hord (Z.le_refl s) eq_refl x Hx).
    + intros pre a b post E.
      apply (proj2 (bridge_adjacent r mg s e (s, e) Hord (Z.le_refl s) eq_refl)
                   pre a b post E).
Qed.

Lemma speech_segments_gap_bridging_witness :
  get_speech_segments (mkTranscription (Some [(0, 3); (4, 6); (10, 12)])) 2
    = [(0, 6); (10, 12)] /\
  exists o, In o (get_speech_segments
                    (mkTranscription (Some [(0, 3); (4, 6); (10, 12)])) 2) /\
            contained (0, 3) o /\ contained (4, 6) o.
Proof.
  split; [reflexivity|].
  apply (proj2 (proj2 (speech_segments_gap_bridging [(0, 3); (4, 6); (10, 12)] 2)
                  ltac:(repeat constructor; unfold istart, iend; simpl; lia))
               [] (0, 3) (4, 6) [(10, 12)]).
  - reflexivity.
  - unfold istart, iend. simpl. lia.
Defined.

(** C9, counterexample.  A raw span nested in the one before it: the
    current interval's end moves back to 2, and the raw span [(0, 10)] lies
    within no returned interval. *)
Lemma speech_segments_lose_nested_span :
  get_speech_segments (mkTranscription (Some [(0, 10); (1, 2)])) 2 = [(0, 2)] /\
  ~ exists o, In o (get_speech_segments (mkTranscription (Some [(0, 10); (1, 2)])) 2)
              /\ contained (0, 10) o.
Proof.
  split; [reflexivity|].
  intros [o [Ho Hc]]. vm_compute in Ho. destruct Ho as [<-|[]].
  unfold contained, istart, iend in Hc. simpl in Hc. lia.
Qed.

(** ** C3 *)

(** C3 (as the code has it).  In [whisper] mode the reconciler returns the
    list of [detect_speech_from_video] as it is, without sorting or checking
    it.  When [min_gap >= 0] and the raw transcription spans have
    [start <= end] and come sorted by start, that list is sorted ascending
    by start and pairwise non-overlapping. *)
Theorem whisper_mode_sorted_non_overlapping : forall cfg env,
  0 <= min_silence_duration cfg ->
  Forall well_formed (raw_segments env) ->
  sorted_by_start (raw_segments env) ->
  _detect_keep_segments cfg env "whisper" =
    detect_speech_from_video (audio_extracted env) (transcription env)
                             (min_silence_duration cfg) /\
  sorted_by_start (_detect_keep_segments cfg env "whisper") /\
  non_overlapping (_detect_keep_segments cfg env "whisper").
Proof.
  intros cfg env Hmg Hwf Hs.
  assert (E : _detect_keep_segments cfg env "whisper" =
              detect_speech_from_video (audio_extracted env) (transcription env)
                                       (min_silence_duration cfg)) by reflexivity.
  split; [exact E|]. rewrite E. clear E.
  unfold raw_segments in Hwf, Hs. unfold detect_speech_from_video.
  destruct (audio_extracted env); simpl; [|split; constructor].
  destruct (transcription env) as [[[raw|]]|]; try (split; constructor).
  apply get_speech_segments_sorted; assumption.
Qed.

Lemma whisper_mode_sorted_non_overlapping_witness :
  _detect_keep_segments default_config
    (quiet_env (Some (Some 60000)) []
       (Some (mkTranscription (Some [(0, 3000); (4000, 6000); (10000, 12000)]))))
    "whisper" = [(0, 6000); (10000, 12000)] /\
  sorted_by_start (_detect_keep_segments default_config
    (quiet_env (Some (Some 60000)) []
       (Some (mkTranscription (Some [(0, 3000); (4000, 6000); (10000, 12000)]))))
    "whisper") /\
  non_overlapping (_detect_keep_segments default_config
    (quiet_env (Some (Some 60000)) []
       (Some (mkTranscription (Some [(0, 3000); (4000, 6000); (10000, 12000)]))))
    "whisper").
Proof.
  split; [reflexivity|].
  apply (whisper_mode_sorted_non_overlapping default_config
    (quiet_env (Some (Some 60000)) []
       (Some (mkTranscription (Some [(0, 3000); (4000, 6000); (10000, 12000)]))))).
  - simpl. lia.
  - repeat constructor; unfold well_formed, istart, iend; simpl; lia.
  - repeat constructor; unfold istart; simpl; lia.
Defined.

(** C3, counterexample.  Raw spans out of order reach the keep list
    unsorted: the reconciler returns [(10000, 1000); (5000, 6000)], whose
    starts decrease. *)
Lemma whisper_mode_returns_unsorted :
  _detect_keep_segments default_config
    (quiet_env (Some (Some 60000)) []
       (Some (mkTranscription (Some [(10000, 12000); (0, 1000); (5000, 6000)]))))
    "whisper" = [(10000, 1000); (5000, 6000)] /\
  ~ sorted_by_start (_detect_keep_segments default_config
    (quiet_env (Some (Some 60000)) []
       (Some (mkTranscription (Some [(10000, 12000); (0, 1000); (5000, 6000)]))))
    "whisper").
Proof.
  split; [reflexivity|].
  intros H. apply sorted_by_start_b in H. vm_compute in H. discriminate.
Qed.

(** ** The cut planner *)

Lemma filter_loop_spec : forall l i p acc,
  filter_loop l i p acc = acc ++ trims_from l i p.
Proof.
  induction l as [|[s e] r IH]; intros i p acc; simpl.
  - rewrite app_nil_r. reflexivity.
  - rewrite IH, <- app_assoc. reflexivity.
Qed.

Lemma clips_loop_commands : forall l i total p clip_ok files cmds msgs,
  snd (fst (clips_loop l i total p clip_ok files cmds msgs)) =
  cmds ++ map ExtractClip (clips_from l i p).
Proof.
  induction l as [|[s e] r IH]; intros i total p clip_ok files cmds msgs; simpl.
  - rewrite app_nil_r. reflexivity.
  - destruct (clip_ok i); rewrite IH, <- app_assoc; reflexivity.
Qed.

Lemma clips_of_extract : forall cs, clips_of (map ExtractClip cs) = cs.
Proof.
  induction cs as [|c r IH]; simpl; [reflexivity | f_equal; exact IH].
Qed.

Lemma trims_from_nth : forall l i p k s e,
  nth_error l k = Some (s, e) ->
  nth_error (trims_from l i p) k =
  Some (mkTrim (i + k) (Z.max 0 (s - p)) (e + p)).
Proof.
  induction l as [|[s' e'] r IH]; intros i p k s e H.
  - destruct k; discriminate.
  - destruct k as [|k]; simpl in *.
    + inversion H; subst. rewrite Nat.add_0_r. reflexivity.
    + rewrite (IH (S i) p k s e H). rewrite Nat.add_succ_r. reflexivity.
Qed.

Lemma clips_from_nth : forall l i p k s e,
  nth_error l k = Some (s, e) ->
  nth_error (clips_from l i p) k =
  Some (mkClip (i + k) (Z.max 0 (s - p)) ((e + p) - Z.max 0 (s - p))).
Proof.
  induction l as [|[s' e'] r IH]; intros i p k s e H.
  - destruct k; discriminate.
  - destruct k as [|k]; simpl in *.
    + inversion H; subst. rewrite Nat.add_0_r. reflexivity.
    + rewrite (IH (S i) p k s e H). rewrite Nat.add_succ_r. reflexivity.
Qed.

Lemma trims_from_length : forall l i p,
  List.length (trims_from l i p) = List.length l.
Proof.
  induction l as [|[s e] r IH]; intros i p; simpl; [reflexivity | f_equal; apply IH].
Qed.

Lemma clips_from_length : forall l i p,
  List.length (clips_from l i p) = List.length l.
Proof.
  induction l as [|[s e] r IH]; intros i p; simpl; [reflexivity | f_equal; apply IH].
Qed.

Lemma trims_from_start_nonneg : forall l i p,
  Forall (fun t => 0 <= trim_start t) (trims_from l i p).
Proof.
  induction l as [|[s e] r IH]; intros i p; simpl; constructor.
  - simpl. lia.
  - apply IH.
Qed.

Lemma clips_from_start_nonneg : forall l i p,
  Forall (fun c => 0 <= clip_ss c) (clips_from l i p).
Proof.
  induction l as [|[s e] r IH]; intros i p; simpl; constructor.
  - simpl. lia.
  - apply IH.
Qed.

Lemma cut_video_trims : forall keep p run_ok,
  trims_of (snd (fst (cut_video keep p run_ok))) = trims_from keep 0 p.
Proof.
  intros keep p run_ok. destruct keep as [|x r].
  - reflexivity.
  - unfold cut_video. rewrite filter_loop_spec. simpl. rewrite app_nil_r.
    reflexivity.
Qed.

Lemma export_clips_clips : forall segs p clip_ok,
  clips_of (snd (fst (export_clips segs p clip_ok))) = clips_from segs 1 p.
Proof.
  intros segs p clip_ok. unfold export_clips.
  rewrite clips_loop_commands. simpl. apply clips_of_extract.
Qed.

(** ** C7 *)

(** C7.  For every keep-segment list and every padding [p], [cut_video]
    plans exactly one trim per segment, in the order of the list, the trim of
    segment [(start, end)] running from [max 0 (start - p)] to [end + p]
    (no bound from the duration enters), and [export_clips] plans one clip
    per segment, in order and numbered from 1, at [max 0 (start - p)] with
    duration [(end + p) - max 0 (start - p)]; no planned start is
    negative. *)
Theorem cut_planner_padding : forall keep p run_ok clip_ok,
  List.length (trims_of (snd (fst (cut_video keep p run_ok)))) = List.length keep /\
  List.length (clips_of (snd (fst (export_clips keep p clip_ok)))) = List.length keep /\
  (forall i s e, nth_error keep i = Some (s, e) ->
     nth_error (trims_of (snd (fst (cut_video keep p run_ok)))) i =
       Some (mkTrim i (Z.max 0 (s - p)) (e + p)) /\
     nth_error (clips_of (snd (fst (export_clips keep p clip_ok)))) i =
       Some (mkClip (S i) (Z.max 0 (s - p)) ((e + p) - Z.max 0 (s - p)))) /\
  Forall (fun t => 0 <= trim_start t)
         (trims_of (snd (fst (cut_video keep p run_ok)))) /\
  Forall (fun c => 0 <= clip_ss c)
         (clips_of (snd (fst (export_clips keep p clip_ok)))).
Proof.
  intros keep p run_ok clip_ok.
  rewrite cut_video_trims, export_clips_clips.
  split; [apply trims_from_length|].
  split; [apply clips_from_length|].
  split; [|split; [apply trims_from_start_nonneg | apply clips_from_start_nonneg]].
  intros i s e H. split.
  - rewrite (trims_from_nth keep 0 p i s e H). reflexivity.
  - rewrite (clips_from_nth keep 1 p i s e H). reflexivity.
Qed.

(** A padding larger than the first start, and a padded end past the
    duration of 60000. *)
Lemma cut_planner_padding_witness :
  trims_of (snd (fst (cut_video [(200, 10000); (15000, 60000)] 500 true)))
    = [mkTrim 0 0 10500; mkTrim 1 14500 60500] /\
  clips_of (snd (fst (export_clips [(200, 10000); (15000, 60000)] 500
                                   (fun _ => false))))
    = [mkClip 1 0 10500; mkClip 2 14500 46000] /\
  nth_error (trims_of (snd (fst (cut_video [(200, 10000); (15000, 60000)] 500 true)))) 1
    = Some (mkTrim 1 (Z.max 0 (15000 - 500)) (60000 + 500)).
Proof.
  split; [reflexivity|]. split; [reflexivity|].
  apply (proj1 (proj1 (proj2 (proj2
           (cut_planner_padding [(200, 10000); (15000, 60000)] 500 true
                                (fun _ => true))))
           1%nat 15000 60000 eq_refl)).
Defined.

(** ** C8 *)

(** C8.  On the empty keep-segment list [cut_video] returns [False] with
    the message "No segments to keep" and runs no command, and
    [export_clips] runs none either.  When detection yields no keep segment,
    [process_video] fails without an output file and without handing any
    command to the transcoder; unless the run was cancelled its error is
    "No segments to keep". *)
Theorem empty_keep_list_runs_nothing : forall cfg env p run_ok clip_ok,
  _detect_keep_segments cfg env (processing_mode cfg) = [] ->
  cut_video [] p run_ok = (false, [], [NoSegmentsToKeep]) /\
  export_clips [] p clip_ok = ([], [], []) /\
  success (fst (fst (process_video cfg env))) = false /\
  output_files (fst (fst (process_video cfg env))) = [] /\
  snd (fst (process_video cfg env)) = [] /\
  (cancelled_after_detect env = false ->
   error (fst (fst (process_video cfg env))) = Some "No segments to keep"%string /\
   snd (process_video cfg env) = [NoSegmentsDetected]).
Proof.
  intros cfg env p run_ok clip_ok H.
  split; [reflexivity|]. split; [reflexivity|].
  unfold process_video. rewrite H.
  destruct (cancelled_after_detect env); simpl.
  - split; [reflexivity|]. split; [reflexivity|]. split; [reflexivity|].
    intros Hf. discriminate Hf.
  - split; [reflexivity|]. split; [reflexivity|]. split; [reflexivity|].
    intros _. split; reflexivity.
Qed.

(** Silence over the whole video: nothing is kept, nothing is run. *)
Lemma empty_keep_list_runs_nothing_witness :
  _detect_keep_segments default_config
    (quiet_env (Some (Some 60000)) [(0, 60000)] None) "ffmpeg" = [] /\
  process_video default_config (quiet_env (Some (Some 60000)) [(0, 60000)] None)
    = (mkResults false [] 60000 0 0 0 (Some "No segments to keep"%string),
       [], [NoSegmentsDetected]) /\
  snd (fst (process_video default_config
              (quiet_env (Some (Some 60000)) [(0, 60000)] None))) = [].
Proof.
  split; [reflexivity|]. split; [reflexivity|].
  apply (proj1 (proj2 (proj2 (proj2 (proj2
    (empty_keep_list_runs_nothing default_config
       (quiet_env (Some (Some 60000)) [(0, 60000)] None)
       500 true (fun _ => true) eq_refl)))))).
Defined.

(** ** C10 *)

Lemma process_video_segments_removed : forall cfg env,
  cancelled_after_detect env = false ->
  segments_removed (fst (fst (process_video cfg env))) =
  _count_removed_segments (_detect_keep_segments cfg env (processing_mode cfg))
    (original_duration (fst (fst (process_video cfg env)))).
Proof.
  intros cfg env Hc. unfold process_video. rewrite Hc.
  destruct (_detect_keep_segments cfg env (processing_mode cfg)) as [|x r] eqn:E.
  - reflexivity.
  - destruct (export_merged cfg);
      [destruct (cut_video (x :: r) (padding_seconds cfg) (cut_run_ok env))
         as [[ok cmds] msgs]|];
      (destruct (cancelled_after_merged env); [reflexivity|]);
      (destruct (export_clips_enabled cfg);
         [destruct (export_clips (x :: r) (padding_seconds cfg) (clip_run_ok env))
            as [[created cmds'] msgs']|]);
      reflexivity.
Qed.

(** C10.  [_count_removed_segments] returns the number of keep segments
    minus one on a non-empty list, whatever the duration and wherever the
    segments lie, and 0 on the empty list; a run of [process_video] that is
    not cancelled before the statistics reports that number as
    [segments_removed]. *)
Theorem segments_removed_counts_inner_gaps : forall cfg env keep D,
  (keep <> [] -> _count_removed_segments keep D = Z.of_nat (List.length keep) - 1) /\
  _count_removed_segments [] D = 0 /\
  (cancelled_after_detect env = false ->
   _detect_keep_segments cfg env (processing_mode cfg) = keep ->
   segments_removed (fst (fst (process_video cfg env))) =
     match keep with
     | [] => 0
     | _ => Z.of_nat (List.length keep) - 1
     end).
Proof.
  intros cfg env keep D. split; [|split].
  - intros Hne. destruct keep; [congruence | reflexivity].
  - reflexivity.
  - intros Hc E. rewrite (process_video_segments_removed cfg env Hc), E.
    destruct keep; reflexivity.
Qed.

(** One keep segment in the middle of the video: footage is removed before
    and after it (two REMOVED rows in the report), and [segments_removed]
    is 0; with three keep segments it is 2. *)
Lemma segments_removed_counts_inner_gaps_witness :
  _detect_keep_segments default_config
    (quiet_env (Some (Some 60000)) [(0, 10000); (20000, 60000)] None) "ffmpeg"
    = [(10000, 20000)] /\
  count_removed_rows (timestamp_rows [(10000, 20000)] 60000) = 2 /\
  segments_removed (fst (fst (process_video default_config
    (quiet_env (Some (Some 60000)) [(0, 10000); (20000, 60000)] None)))) = 0 /\
  _count_removed_segments [(0, 10); (15, 40); (42, 60)] 60 = 2.
Proof.
  split; [reflexivity|]. split; [reflexivity|]. split.
  - apply (proj2 (proj2 (segments_removed_counts_inner_gaps default_config
      (quiet_env (Some (Some 60000)) [(0, 10000); (20000, 60000)] None)
      [(10000, 20000)] 60000)) eq_refl eq_refl).
  - apply (proj1 (segments_removed_counts_inner_gaps default_config
      (quiet_env None [] None) [(0, 10); (15, 40); (42, 60)] 60)).
    discriminate.
Defined.

(** * Further properties of the code *)

(** ** Inversion: kept and silent time add up *)

Lemma total_length_app : forall l1 l2,
  total_length (l1 ++ l2) = total_length l1 + total_length l2.
Proof.
  induction l1 as [|[s e] r IH]; intros l2; simpl.
  - reflexivity.
  - rewrite IH. lia.
Qed.

Lemma gaps_total_length : forall l last_end,
  Forall well_formed l ->
  non_overlapping l ->
  Forall (fun x => last_end <= istart x) l ->
  total_length (gaps l last_end) + total_length l = final_end l last_end - last_end.
Proof.
  unfold non_overlapping.
  induction l as [|[s e] r IH]; intros le Hwf Hno Hlow; simpl.
  - lia.
  - inversion Hwf as [|? ? Hse Hwf']; subst.
    inversion Hno as [|? ? Hno' Hall]; subst.
    inversion Hlow as [|? ? Hles _]; subst.
    unfold well_formed, istart, iend in Hse, Hles. simpl in Hse, Hles.
    specialize (IH e Hwf' Hno' Hall).
    rewrite total_length_app.
    destruct (Z.gtb_spec s le); simpl; lia.
Qed.

Lemma invert_total_length : forall sil D,
  Forall (within D) sil ->
  non_overlapping sil ->
  total_length (_invert_segments sil D) + total_length sil = D.
Proof.
  intros sil D Hin Hno.
  pose proof (within_well_formed _ _ Hin) as Hwf.
  destruct sil as [|x r].
  - simpl. lia.
  - assert (HD : 0 <= D).
    { inversion Hin as [|? ? Hx _]; subst. unfold within in Hx. lia. }
    rewrite _invert_segments_spec by congruence.
    rewrite (sorted_fixes_tuple_sorted (x :: r))
      by (apply non_overlapping_tuple_sorted; assumption).
    remember (x :: r) as l.
    assert (Hlow : Forall (fun y => 0 <= istart y) l)
      by (eapply Forall_impl; [|exact Hin]; unfold within; intros; lia).
    assert (Hup : Forall (fun y => iend y <= D) l)
      by (eapply Forall_impl; [|exact Hin]; unfold within; intros; lia).
    pose proof (gaps_total_length l 0 Hwf Hno Hlow) as Ht.
    pose proof (final_end_upper l 0 D HD Hup) as Hf.
    rewrite total_length_app.
    destruct (Z.ltb_spec (final_end l 0) D); simpl; lia.
Qed.

(** X1.  For a sorted list of pairwise disjoint silence intervals inside
    [[0, D]], the lengths of the keep segments of [_invert_segments] and the
    lengths of the silence intervals add up to [D]: what is not silence is
    kept, and nothing is counted twice. *)
Theorem invert_segments_length_balance : forall sil D,
  Forall (within D) sil ->
  non_overlapping sil ->
  total_length (_invert_segments sil D) = D - total_length sil.
Proof.
  intros sil D Hin Hno. pose proof (invert_total_length sil D Hin Hno). lia.
Qed.

Lemma invert_segments_length_balance_witness :
  total_length (_invert_segments [(10, 15); (40, 42)] 60)
    = 60 - total_length [(10, 15); (40, 42)].
Proof.
  apply (invert_segments_length_balance [(10, 15); (40, 42)] 60).
  - repeat constructor; unfold istart, iend; simpl; lia.
  - repeat constructor; unfold istart, iend; simpl; lia.
Defined.

(** ** The order of the detector's list does not matter *)

Lemma tuple_le_antisym : forall a b,
  tuple_le a b = true -> tuple_le b a = true -> a = b.
Proof.
  intros [s e] [s' e']. unfold tuple_le. simpl. intros H1 H2.
  apply orb_true_iff in H1. apply orb_true_iff in H2.
  rewrite andb_true_iff, Z.ltb_lt, Z.eqb_eq, Z.leb_le in *.
  f_equal; lia.
Qed.

Lemma tuple_sorted_perm_eq : forall l1 l2,
  tuple_sorted l1 -> tuple_sorted l2 -> Permutation l1 l2 -> l1 = l2.
Proof.
  unfold tuple_sorted.
  induction l1 as [|x r1 IH]; intros l2 H1 H2 P.
  - apply Permutation_nil in P. congruence.
  - destruct l2 as [|y r2].
    + apply Permutation_sym, Permutation_nil in P. discriminate.
    + inversion H1 as [|? ? Hr1 Hx]; subst.
      inversion H2 as [|? ? Hr2 Hy]; subst.
      assert (Exy : x = y).
      { assert (Hin_x : In x (y :: r2))
          by (eapply Permutation_in; [exact P | left; reflexivity]).
        assert (Hin_y : In y (x :: r1))
          by (eapply Permutation_in; [apply Permutation_sym; exact P | left; reflexivity]).
        rewrite Forall_forall in Hx, Hy.
        destruct Hin_x as [E|Hin_x]; [congruence|].
        destruct Hin_y as [E|Hin_y]; [congruence|].
        apply tuple_le_antisym; auto. }
      subst y. f_equal. apply IH; try assumption.
      eapply Permutation_cons_inv. exact P.
Qed.

Lemma sorted_perm_eq : forall l1 l2,
  Permutation l1 l2 -> sorted l1 = sorted l2.
Proof.
  intros l1 l2 P. apply tuple_sorted_perm_eq; try apply sorted_tuple_sorted.
  eapply perm_trans; [apply sorted_perm|].
  eapply perm_trans; [exact P|]. apply Permutation_sym, sorted_perm.
Qed.

(** X2.  [_invert_segments] and the timestamp report sort the list they
    are given, so their results do not depend on the order in which the
    intervals arrive: rearranging the input changes neither the keep
    segments nor the rows. *)
Theorem results_independent_of_input_order : forall l1 l2 D,
  Permutation l1 l2 ->
  _invert_segments l1 D = _invert_segments l2 D /\
  timestamp_rows l1 D = timestamp_rows l2 D.
Proof.
  intros l1 l2 D P. split.
  - unfold _invert_segments. rewrite (sorted_perm_eq l1 l2 P).
    destruct l1 as [|x1 r1], l2 as [|x2 r2]; try reflexivity.
    + apply Permutation_nil in P. discriminate.
    + apply Permutation_sym, Permutation_nil in P. discriminate.
  - unfold timestamp_rows. rewrite (sorted_perm_eq l1 l2 P). reflexivity.
Qed.

Lemma results_independent_of_input_order_witness :
  _invert_segments [(40, 42); (10, 15)] 60 = _invert_segments [(10, 15); (40, 42)] 60 /\
  timestamp_rows [(40, 42); (10, 15)] 60 = timestamp_rows [(10, 15); (40, 42)] 60.
Proof.
  apply (results_independent_of_input_order [(40, 42); (10, 15)] [(10, 15); (40, 42)] 60).
  apply perm_swap.
Defined.

(** X3.  Whenever some silence was detected, every keep segment that
    [_invert_segments] returns is non-empty and runs forward
    ([start < end]), whatever the silence intervals and the duration are;
    with silence intervals of non-negative start, no keep segment starts
    before 0. *)
Theorem invert_segments_proper_segments : forall sil D,
  sil <> [] ->
  Forall (fun g => istart g < iend g) (_invert_segments sil D) /\
  (Forall well_formed sil -> Forall (fun x => 0 <= istart x) sil ->
   Forall (fun g => 0 <= istart g) (_invert_segments sil D)).
Proof.
  intros sil D Hne. split; [apply invert_segments_proper; assumption|].
  intros Hwf Hlow. rewrite _invert_segments_spec by assumption.
  assert (Hwf' : Forall well_formed (sorted sil)) by (apply sorted_well_formed; assumption).
  assert (Hlow' : Forall (fun x => 0 <= istart x) (sorted sil)).
  { eapply Permutation_Forall; [|exact Hlow]. apply Permutation_sym, sorted_perm. }
  apply Forall_app. split.
  - apply gaps_bounds; [assumption | lia | assumption].
  - destruct (final_end (sorted sil) 0 <? D); repeat constructor.
    unfold istart. simpl.
    apply final_end_lower; [assumption | lia | assumption].
Qed.

Lemma invert_segments_proper_segments_witness :
  Forall (fun g => istart g < iend g) (_invert_segments [(0, 10); (2, 3)] 20) /\
  (Forall well_formed [(0, 10); (2, 3)] ->
   Forall (fun x => 0 <= istart x) [(0, 10); (2, 3)] ->
   Forall (fun g => 0 <= istart g) (_invert_segments [(0, 10); (2, 3)] 20)).
Proof.
  apply (invert_segments_proper_segments [(0, 10); (2, 3)] 20). discriminate.
Defined.

(** ** Hybrid mode *)

Lemma _merge_segments_filter : forall speech silence,
  _merge_segments speech silence =
  filter (fun sp => negb (existsb (overlapb sp) silence)) speech.
Proof.
  intros. unfold _merge_segments. rewrite merge_loop_filter. reflexivity.
Qed.

Lemma StronglySorted_filter : forall (R : interval -> interval -> Prop) f l,
  StronglySorted R l -> StronglySorted R (filter f l).
Proof.
  intros R f l H. induction H as [|x r Hr IH Hx]; simpl.
  - constructor.
  - destruct (f x); [|exact IH].
    constructor; [exact IH|].
    rewrite Forall_forall in *. intros y Hy.
    apply filter_In in Hy. apply Hx. tauto.
Qed.

Lemma total_length_filter_le : forall f l,
  Forall well_formed l -> total_length (filter f l) <= total_length l.
Proof.
  intros f l H. induction H as [|[s e] r Hx Hr IH]; simpl.
  - lia.
  - unfold well_formed, istart, iend in Hx. simpl in Hx.
    destruct (f (s, e)); simpl; lia.
Qed.

(** X4.  Hybrid mode never keeps a moment that the silence detector
    flagged: no time point, end points included, lies both in a segment
    returned by [_merge_segments] and in a silence interval. *)
Theorem merge_segments_avoid_silence : forall speech silence t,
  covered_closed t (_merge_segments speech silence) = true ->
  covered_closed t silence = false.
Proof.
  intros speech silence t H. rewrite _merge_segments_filter in H.
  unfold covered_closed in H. apply existsb_exists in H.
  destruct H as [sp [Hin Hsp]]. apply filter_In in Hin. destruct Hin as [_ Hno].
  apply negb_true_iff in Hno.
  destruct (covered_closed t silence) eqn:E; [|reflexivity].
  unfold covered_closed in E. apply existsb_exists in E.
  destruct E as [v [Hv Hcv]].
  assert (Ho : existsb (overlapb sp) silence = true).
  { apply existsb_exists. exists v. split; [assumption|].
    unfold overlapb, covers_closed in *.
    apply andb_true_iff in Hsp. apply andb_true_iff in Hcv.
    rewrite !Z.leb_le in Hsp, Hcv.
    apply negb_true_iff, orb_false_iff. rewrite Z.ltb_ge, Z.gtb_ltb, Z.ltb_ge. lia. }
  congruence.
Qed.

Lemma merge_segments_avoid_silence_witness :
  _merge_segments [(0, 9); (12, 15)] [(10, 11); (14, 20)] = [(0, 9)] /\
  covered_closed 5 [(10, 11); (14, 20)] = false.
Proof.
  split; [reflexivity|].
  apply (merge_segments_avoid_silence [(0, 9); (12, 15)] [(10, 11); (14, 20)] 5).
  reflexivity.
Defined.

(** X5.  [_merge_segments] only removes speech intervals: it keeps the
    speech list's order by start and its non-overlap, never lengthens the
    kept time (for intervals with [start <= end]), returns the speech list
    unchanged when there is no silence, and applying it again with the same
    silence list changes nothing. *)
Theorem merge_segments_only_removes : forall speech silence,
  (sorted_by_start speech -> sorted_by_start (_merge_segments speech silence)) /\
  (non_overlapping speech -> non_overlapping (_merge_segments speech silence)) /\
  (Forall well_formed speech ->
   total_length (_merge_segments speech silence) <= total_length speech) /\
  _merge_segments speech [] = speech /\
  _merge_segments (_merge_segments speech silence) silence
    = _merge_segments speech silence.
Proof.
  intros speech silence. rewrite !_merge_segments_filter.
  split; [apply StronglySorted_filter|].
  split; [apply StronglySorted_filter|].
  split; [apply total_length_filter_le|].
  split.
  - simpl. induction speech as [|x r IH]; simpl; [reflexivity | f_equal; exact IH].
  - induction speech as [|x r IH]; simpl; [reflexivity|].
    destruct (negb (existsb (overlapb x) silence)) eqn:E; simpl.
    + rewrite E. f_equal. exact IH.
    + exact IH.
Qed.

Lemma merge_segments_only_removes_witness :
  non_overlapping (_merge_segments [(0, 9); (12, 15); (30, 40)] [(14, 20)]) /\
  total_length (_merge_segments [(0, 9); (12, 15); (30, 40)] [(14, 20)])
    <= total_length [(0, 9); (12, 15); (30, 40)].
Proof.
  split.
  - apply (proj1 (proj2 (merge_segments_only_removes
                           [(0, 9); (12, 15); (30, 40)] [(14, 20)]))).
    repeat constructor; unfold istart, iend; simpl; lia.
  - apply (proj1 (proj2 (proj2 (merge_segments_only_removes
                           [(0, 9); (12, 15); (30, 40)] [(14, 20)])))).
    repeat constructor; unfold well_formed, istart, iend; simpl; lia.
Defined.

Lemma detect_speech_sorted : forall env mg,
  0 <= mg ->
  Forall well_formed (raw_segments env) ->
  sorted_by_start (raw_segments env) ->
  sorted_by_start (detect_speech_from_video (audio_extracted env) (transcription env) mg) /\
  non_overlapping (detect_speech_from_video (audio_extracted env) (transcription env) mg).
Proof.
  intros env mg Hmg Hwf Hs.
  unfold raw_segments in Hwf, Hs. unfold detect_speech_from_video.
  destruct (audio_extracted env); simpl; [|split; constructor].
  destruct (transcription env) as [[[raw|]]|]; try (split; constructor).
  apply get_speech_segments_sorted; assumption.
Qed.

(** X6.  The reconciler's [hybrid] mode returns a part of what its
    [whisper] mode returns for the same video, and with [min_gap >= 0] and
    raw spans that have [start <= end] and come sorted by start its keep
    list is sorted ascending by start and pairwise non-overlapping. *)
Theorem hybrid_mode_refines_whisper_mode : forall cfg env,
  (forall x, In x (_detect_keep_segments cfg env "hybrid") ->
             In x (_detect_keep_segments cfg env "whisper")) /\
  (0 <= min_silence_duration cfg ->
   Forall well_formed (raw_segments env) ->
   sorted_by_start (raw_segments env) ->
   sorted_by_start (_detect_keep_segments cfg env "hybrid") /\
   non_overlapping (_detect_keep_segments cfg env "hybrid")).
Proof.
  intros cfg env.
  assert (E : _detect_keep_segments cfg env "hybrid" =
              filter (fun sp => negb (existsb (overlapb sp) (silence_detected env)))
                     (_detect_keep_segments cfg env "whisper")).
  { change (_detect_keep_segments cfg env "hybrid") with
      (_merge_segments
         (detect_speech_from_video (audio_extracted env) (transcription env)
                                   (min_silence_duration cfg))
         (silence_detected env)).
    rewrite _merge_segments_filter. reflexivity. }
  rewrite E. split.
  - intros x Hx. apply filter_In in Hx. tauto.
  - intros Hmg Hwf Hs.
    destruct (detect_speech_sorted env (min_silence_duration cfg) Hmg Hwf Hs) as [H1 H2].
    split; apply StronglySorted_filter; assumption.
Qed.

Lemma hybrid_mode_refines_whisper_mode_witness :
  _detect_keep_segments default_config
    (quiet_env (Some (Some 60000)) [(11000, 13000)]
       (Some (mkTranscription (Some [(0, 3000); (4000, 6000); (10000, 12000)]))))
    "hybrid" = [(0, 6000)] /\
  non_overlapping (_detect_keep_segments default_config
    (quiet_env (Some (Some 60000)) [(11000, 13000)]
       (Some (mkTranscription (Some [(0, 3000); (4000, 6000); (10000, 12000)]))))
    "hybrid").
Proof.
  split; [reflexivity|].
  apply (proj2 (hybrid_mode_refines_whisper_mode default_config
    (quiet_env (Some (Some 60000)) [(11000, 13000)]
       (Some (mkTranscription (Some [(0, 3000); (4000, 6000); (10000, 12000)])))))).
  - simpl. lia.
  - repeat constructor; unfold well_formed, istart, iend; simpl; lia.
  - repeat constructor; unfold istart; simpl; lia.
Defined.

(** ** More on gap bridging *)

Lemma bridge_fixed : forall l mg cur,
  gaps_exceed mg (cur :: l) -> bridge l mg cur = cur :: l.
Proof.
  unfold gaps_exceed.
  induction l as [|[s e] r IH]; intros mg cur H; simpl.
  - reflexivity.
  - inversion H as [|? ? Hs Hhd]; subst.
    inversion Hhd as [|? ? Hgap]; subst.
    unfold istart, iend in Hgap. simpl in Hgap.
    destruct (Z.leb_spec (s - snd cur) mg); [lia|].
    rewrite IH by assumption. reflexivity.
Qed.

(** X7.  Gap bridging is idempotent: feeding the intervals returned by
    [get_speech_segments] to it again, with the same [min_gap], returns them
    unchanged, for every raw segment list. *)
Theorem get_speech_segments_idempotent : forall raw min_gap,
  get_speech_segments
    (mkTranscription
       (Some (get_speech_segments (mkTranscription (Some raw)) min_gap)))
    min_gap
  = get_speech_segments (mkTranscription (Some raw)) min_gap.
Proof.
  intros raw mg. rewrite (get_speech_segments_bridge raw).
  destruct raw as [|x r]; [reflexivity|].
  rewrite get_speech_segments_bridge.
  pose proof (bridge_gaps_exceed r mg x) as H.
  destruct (bridge r mg x) as [|y l]; [reflexivity|].
  apply bridge_fixed. exact H.
Qed.

Lemma bridge_length : forall raw mg cs ce,
  List.length (bridge raw mg (cs, ce)) = S (wide_gaps mg ce raw).
Proof.
  induction raw as [|[s e] r IH]; intros mg cs ce; simpl.
  - reflexivity.
  - destruct (s - ce <=? mg); simpl; rewrite IH; reflexivity.
Qed.

Lemma wide_gaps_le_length : forall raw mg prev,
  (wide_gaps mg prev raw <= List.length raw)%nat.
Proof.
  induction raw as [|[s e] r IH]; intros mg prev; simpl.
  - apply Nat.le_refl.
  - specialize (IH mg e). destruct (s - prev <=? mg); simpl; lia.
Qed.

Lemma wide_gaps_antitone : forall raw mg mg' prev,
  mg <= mg' -> (wide_gaps mg' prev raw <= wide_gaps mg prev raw)%nat.
Proof.
  induction raw as [|[s e] r IH]; intros mg mg' prev H; simpl.
  - apply Nat.le_refl.
  - specialize (IH mg mg' e H).
    destruct (Z.leb_spec (s - prev) mg'), (Z.leb_spec (s - prev) mg); simpl; lia.
Qed.

(** X8.  [get_speech_segments] returns one interval plus one for every raw
    span that starts more than [min_gap] after the end of the raw span
    before it; so it returns an empty list only for an empty raw list, never
    more intervals than raw spans, and a larger [min_gap] never gives more
    intervals. *)
Theorem get_speech_segments_count : forall s e r min_gap min_gap',
  List.length (get_speech_segments (mkTranscription (Some ((s, e) :: r))) min_gap)
    = S (wide_gaps min_gap e r) /\
  (List.length (get_speech_segments (mkTranscription (Some ((s, e) :: r))) min_gap)
     <= List.length ((s, e) :: r))%nat /\
  (min_gap <= min_gap' ->
   (List.length (get_speech_segments (mkTranscription (Some ((s, e) :: r))) min_gap')
      <= List.length (get_speech_segments (mkTranscription (Some ((s, e) :: r))) min_gap))%nat).
Proof.
  intros s e r mg mg'. rewrite !get_speech_segments_bridge, !bridge_length.
  split; [reflexivity|]. split.
  - simpl. apply le_n_S, wide_gaps_le_length.
  - intros H. apply le_n_S, wide_gaps_antitone. exact H.
Qed.

Lemma get_speech_segments_count_witness :
  Nat.le
    (List.length (get_speech_segments
       (mkTranscription (Some [(0, 3); (4, 6); (10, 12)])) 5))
    (List.length (get_speech_segments
       (mkTranscription (Some [(0, 3); (4, 6); (10, 12)])) 2)).
Proof.
  apply (proj2 (proj2 (get_speech_segments_count 0 3 [(4, 6); (10, 12)] 2 5))).
  lia.
Defined.

Lemma bridge_endpoints : forall raw mg cs ce o,
  In o (bridge raw mg (cs, ce)) ->
  (istart o = cs \/ In (istart o) (map fst raw)) /\
  (iend o = ce \/ In (iend o) (map snd raw)).
Proof.
  induction raw as [|[s e] r IH]; intros mg cs ce o Ho; simpl in Ho.
  - destruct Ho as [<-|[]]. split; left; reflexivity.
  - destruct (s - ce <=? mg).
    + destruct (IH mg cs e o Ho) as [H1 H2]. simpl. split.
      * destruct H1; [left | right; right]; assumption.
      * destruct H2; [right; left; congruence | right; right; assumption].
    + destruct Ho as [<-|Ho].
      * split; left; reflexivity.
      * destruct (IH mg s e o Ho) as [H1 H2]. simpl. split.
        -- destruct H1; [right; left; congruence | right; right; assumption].
        -- destruct H2; [right; left; congruence | right; right; assumption].
Qed.

Lemma bridge_last_end : forall raw mg cs ce d,
  iend (last (bridge raw mg (cs, ce)) d) = final_end raw ce.
Proof.
  induction raw as [|[s e] r IH]; intros mg cs ce d.
  - reflexivity.
  - cbn [bridge fst snd final_end]. destruct (s - ce <=? mg).
    + apply IH.
    + rewrite <- (IH mg s e d).
      destruct (bridge_head_start r mg s e) as [e' [rest ->]]. reflexivity.
Qed.

Lemma final_end_last : forall l s e d,
  final_end l e = iend (last ((s, e) :: l) d).
Proof.
  induction l as [|[s' e'] r IH]; intros s e d.
  - reflexivity.
  - cbn [final_end]. rewrite (IH s' e' d). reflexivity.
Qed.

(** X9.  Gap bridging invents no time stamp: every interval returned by
    [get_speech_segments] starts at the start of a raw span and ends at the
    end of a raw span; the first returned interval starts where the first
    raw span starts and the last one ends where the last raw span ends. *)
Theorem get_speech_segments_endpoints : forall x r min_gap d,
  (forall o, In o (get_speech_segments (mkTranscription (Some (x :: r))) min_gap) ->
     In (istart o) (map fst (x :: r)) /\ In (iend o) (map snd (x :: r))) /\
  istart (hd d (get_speech_segments (mkTranscription (Some (x :: r))) min_gap))
    = istart x /\
  iend (last (get_speech_segments (mkTranscription (Some (x :: r))) min_gap) d)
    = iend (last (x :: r) d).
Proof.
  intros [s e] r mg d. rewrite get_speech_segments_bridge.
  split; [|split].
  - intros o Ho. destruct (bridge_endpoints r mg s e o Ho) as [H1 H2].
    simpl. split.
    + destruct H1 as [H1|H1]; [left; symmetry; exact H1 | right; exact H1].
    + destruct H2 as [H2|H2]; [left; symmetry; exact H2 | right; exact H2].
  - destruct (bridge_head_start r mg s e) as [e' [rest ->]]. reflexivity.
  - rewrite bridge_last_end. apply final_end_last.
Qed.

(** ** More on the timestamp report *)

Lemma numbered_from_app : forall rows1 rows2 n,
  numbered_from n (rows1 ++ rows2) <->
  numbered_from n rows1 /\ numbered_from (n + Z.of_nat (List.length rows1)) rows2.
Proof.
  induction rows1 as [|r rest IH]; intros rows2 n; simpl.
  - rewrite Z.add_0_r. tauto.
  - rewrite IH. rewrite Zpos_P_of_succ_nat.
    replace (n + Z.succ (Z.of_nat (List.length rest)))
      with (n + 1 + Z.of_nat (List.length rest)) by lia.
    tauto.
Qed.

Lemma report_rows_numbered : forall l n last_end,
  numbered_from n (report_rows l n last_end) /\
  report_num l n last_end = n + Z.of_nat (List.length (report_rows l n last_end)).
Proof.
  induction l as [|[s e] r IH]; intros n le; simpl.
  - split; [exact I | lia].
  - destruct (s >? le); simpl.
    + destruct (IH (n + 1 + 1) e) as [H1 H2]. repeat split; try assumption.
      rewrite H2. lia.
    + destruct (IH (n + 1) e) as [H1 H2]. repeat split; try assumption.
      rewrite H2. lia.
Qed.

Lemma report_rows_consistent : forall l n last_end,
  Forall row_consistent (report_rows l n last_end).
Proof.
  induction l as [|[s e] r IH]; intros n le; simpl.
  - constructor.
  - destruct (Z.gtb_spec s le).
    + constructor; [|constructor; [|apply IH]].
      * unfold row_consistent. simpl. repeat split. lia.
      * unfold row_consistent. simpl. split; reflexivity.
    + constructor; [|apply IH].
      unfold row_consistent. simpl. split; reflexivity.
Qed.

(** X10.  For every segment list and duration, the rows of the timestamp
    report are numbered 1, 2, 3, ... by one counter shared by both kinds of
    row; every KEPT row is labelled [Clip], every REMOVED row is labelled
    [Cut] and covers a non-empty range, and every row's duration is its end
    minus its start. *)
Theorem timestamp_rows_numbering : forall segs D,
  numbered_from 1 (timestamp_rows segs D) /\
  Forall row_consistent (timestamp_rows segs D).
Proof.
  intros segs D. rewrite timestamp_rows_spec.
  destruct (report_rows_numbered (sorted segs) 1 0) as [H1 H2].
  split.
  - apply numbered_from_app. split; [exact H1|].
    destruct (final_end (sorted segs) 0 <? D); simpl; [|exact I].
    split; [exact H2 | exact I].
  - apply Forall_app. split; [apply report_rows_consistent|].
    destruct (Z.ltb_spec (final_end (sorted segs) 0) D); repeat constructor.
    simpl. lia.
Qed.

Lemma kept_ranges_app : forall rows1 rows2,
  kept_ranges (rows1 ++ rows2) = kept_ranges rows1 ++ kept_ranges rows2.
Proof.
  induction rows1 as [|r rest IH]; intros rows2; simpl.
  - reflexivity.
  - rewrite IH. destruct (row_action r); reflexivity.
Qed.

Lemma report_rows_kept_ranges : forall l n last_end,
  kept_ranges (report_rows l n last_end) = l.
Proof.
  induction l as [|[s e] r IH]; intros n le; simpl.
  - reflexivity.
  - destruct (s >? le); simpl; rewrite IH; reflexivity.
Qed.

Lemma report_rows_length : forall l n last_end,
  (List.length l <= List.length (report_rows l n last_end) <= 2 * List.length l)%nat.
Proof.
  induction l as [|[s e] r IH]; intros n le; simpl.
  - lia.
  - destruct (s >? le); simpl.
    + specialize (IH (n + 1 + 1) e). lia.
    + specialize (IH (n + 1) e). lia.
Qed.

(** X11.  The KEPT rows of the timestamp report are the given segments in
    ascending order, each exactly once and unchanged, for every segment
    list; the report has at least one row per segment and at most two per
    segment plus one. *)
Theorem timestamp_rows_kept_ranges : forall segs D,
  kept_ranges (timestamp_rows segs D) = sorted segs /\
  Permutation (kept_ranges (timestamp_rows segs D)) segs /\
  (List.length segs <= List.length (timestamp_rows segs D)
     <= 2 * List.length segs + 1)%nat.
Proof.
  intros segs D. rewrite timestamp_rows_spec.
  assert (E : kept_ranges
                (report_rows (sorted segs) 1 0 ++
                 (if final_end (sorted segs) 0 <? D
                  then [mkRow Cut (report_num (sorted segs) 1 0)
                              (final_end (sorted segs) 0) D
                              (D - final_end (sorted segs) 0) REMOVED]
                  else [])) = sorted segs).
  { rewrite kept_ranges_app, report_rows_kept_ranges.
    destruct (final_end (sorted segs) 0 <? D); simpl; apply app_nil_r. }
  split; [exact E|]. split; [rewrite E; apply sorted_perm|].
  rewrite length_app.
  pose proof (report_rows_length (sorted segs) 1 0) as H.
  rewrite (Permutation_length (sorted_perm segs)) in H.
  destruct (final_end (sorted segs) 0 <? D); simpl; lia.
Qed.

Lemma removed_duration_app : forall rows1 rows2,
  removed_duration (rows1 ++ rows2) = removed_duration rows1 + removed_duration rows2.
Proof.
  induction rows1 as [|r rest IH]; intros rows2; simpl.
  - reflexivity.
  - rewrite IH. destruct (row_action r); lia.
Qed.

Lemma report_rows_removed_duration : forall l n last_end,
  Forall well_formed l ->
  non_overlapping l ->
  Forall (fun x => last_end <= istart x) l ->
  removed_duration (report_rows l n last_end) + total_length l
    = final_end l last_end - last_end.
Proof.
  unfold non_overlapping.
  induction l as [|[s e] r IH]; intros n le Hwf Hno Hlow; simpl.
  - lia.
  - inversion Hwf as [|? ? Hse Hwf']; subst.
    inversion Hno as [|? ? Hno' Hall]; subst.
    inversion Hlow as [|? ? Hles _]; subst.
    unfold well_formed, istart, iend in Hse, Hles. simpl in Hse, Hles.
    destruct (Z.gtb_spec s le); simpl.
    + specialize (IH (n + 1 + 1) e Hwf' Hno' Hall). lia.
    + specialize (IH (n + 1) e Hwf' Hno' Hall). lia.
Qed.



(** ** [_format_duration] *)



(** ** More on the cut planner *)

Lemma trims_from_padding : forall l i p,
  0 <= p ->
  Forall (fun iv => 0 <= istart iv <= iend iv) l ->
  Forall2 (fun iv t => trim_start t <= istart iv /\ iend iv <= trim_end t /\
                       istart iv - trim_start t <= p /\ trim_end t - iend iv = p)
          l (trims_from l i p) /\
  total_length l <= planned_length (trims_from l i p)
    <= total_length l + 2 * p * Z.of_nat (List.length l).
Proof.
  induction l as [|[s e] r IH]; intros i p Hp Hl.
  - simpl. split; [constructor | lia].
  - inversion Hl as [|? ? Hse Hr]; subst.
    unfold istart, iend in Hse. simpl in Hse.
    destruct (IH (S i) p Hp Hr) as [IH1 IH2].
    cbn [trims_from planned_length total_length List.length trim_start trim_end].
    split.
    + constructor; [|exact IH1]. unfold istart, iend. simpl. lia.
    + rewrite Nat2Z.inj_succ. nia.
Qed.



Lemma clips_match_trims_from : forall l i p,
  Forall2 (fun t c => clip_number c = S (trim_index t) /\
                      clip_ss c = trim_start t /\
                      clip_ss c + clip_t c = trim_end t)
          (trims_from l i p) (clips_from l (S i) p).
Proof.
  induction l as [|[s e] r IH]; intros i p; simpl.
  - constructor.
  - constructor; [|apply IH]. simpl. repeat split. lia.
Qed.


Lemma clips_loop_created : forall l i total p clip_ok files cmds msgs,
  fst (fst (clips_loop l i total p clip_ok files cmds msgs)) =
  files ++ filter clip_ok (seq i (List.length l)).
Proof.
  induction l as [|[s e] r IH]; intros i total p clip_ok files cmds msgs; simpl.
  - rewrite app_nil_r. reflexivity.
  - destruct (clip_ok i); rewrite IH; [rewrite <- app_assoc|]; reflexivity.
Qed.

Lemma export_clips_created : forall segs p clip_ok,
  fst (fst (export_clips segs p clip_ok)) =
  filter clip_ok (seq 1 (List.length segs)).
Proof.
  intros. unfold export_clips. rewrite clips_loop_created. reflexivity.
Qed.

Lemma export_clips_commands : forall segs p clip_ok,
  snd (fst (export_clips segs p clip_ok)) = map ExtractClip (clips_from segs 1 p).
Proof.
  intros. unfold export_clips. rewrite clips_loop_commands. reflexivity.
Qed.

(** X16.  [export_clips] goes on after a clip fails: it runs one extraction
    command per segment whatever the outcomes, and the files it reports are
    exactly the clips whose run succeeded, in the order of the segments. *)
Theorem export_clips_partial_failure : forall segs p clip_ok,
  fst (fst (export_clips segs p clip_ok))
    = filter clip_ok (seq 1 (List.length segs)) /\
  List.length (snd (fst (export_clips segs p clip_ok))) = List.length segs /\
  List.length (clips_of (snd (fst (export_clips segs p clip_ok)))) = List.length segs.
Proof.
  intros segs p clip_ok. split; [apply export_clips_created|].
  rewrite export_clips_clips, export_clips_commands, length_map, clips_from_length.
  split; reflexivity.
Qed.

(** ** [process_video] as a whole *)

Lemma process_video_original : forall cfg env,
  original_duration (fst (fst (process_video cfg env))) = _get_duration env.
Proof.
  intros cfg env. unfold process_video, _get_duration.
  destruct (cancelled_after_detect env);
    [destruct (video_info env) as [[d|]|]; reflexivity|].
  destruct (_detect_keep_segments cfg env (processing_mode cfg)) as [|x r];
    [destruct (video_info env) as [[d|]|]; reflexivity|].
  destruct (export_merged cfg);
    [destruct (cut_video (x :: r) (padding_seconds cfg) (cut_run_ok env))
       as [[ok cmds] msgs]|];
    (destruct (cancelled_after_merged env);
       [destruct (video_info env) as [[d|]|]; reflexivity|]);
    (destruct (export_clips_enabled cfg);
       [destruct (export_clips (x :: r) (padding_seconds cfg) (clip_run_ok env))
          as [[created cmds'] msgs']|]);
    destruct (video_info env) as [[d|]|]; reflexivity.
Qed.

Lemma process_video_statistics : forall cfg env,
  cancelled_after_detect env = false ->
  _detect_keep_segments cfg env (processing_mode cfg) <> [] ->
  final_duration (fst (fst (process_video cfg env)))
    = total_length (_detect_keep_segments cfg env (processing_mode cfg)) /\
  time_saved (fst (fst (process_video cfg env)))
    = _get_duration env
      - total_length (_detect_keep_segments cfg env (processing_mode cfg)).
Proof.
  intros cfg env Hc Hne. unfold process_video, _get_duration. rewrite Hc.
  destruct (_detect_keep_segments cfg env (processing_mode cfg)) as [|x r];
    [congruence|].
  destruct (export_merged cfg);
    [destruct (cut_video (x :: r) (padding_seconds cfg) (cut_run_ok env))
       as [[ok cmds] msgs]|];
    (destruct (cancelled_after_merged env);
       [destruct (video_info env) as [[d|]|]; split; reflexivity|]);
    (destruct (export_clips_enabled cfg);
       [destruct (export_clips (x :: r) (padding_seconds cfg) (clip_run_ok env))
          as [[created cmds'] msgs']|]);
    destruct (video_info env) as [[d|]|]; split; reflexivity.
Qed.

Lemma process_video_success : forall cfg env,
  success (fst (fst (process_video cfg env))) =
  negb (cancelled_after_detect env) &&
  match _detect_keep_segments cfg env (processing_mode cfg) with
  | [] => false
  | _ => negb (cancelled_after_merged env)
  end /\
  (error (fst (fst (process_video cfg env))) = None <->
   success (fst (fst (process_video cfg env))) = true).
Proof.
  intros cfg env. unfold process_video.
  destruct (cancelled_after_detect env); [split; [reflexivity | split; discriminate]|].
  destruct (_detect_keep_segments cfg env (processing_mode cfg)) as [|x r];
    [split; [reflexivity | split; discriminate]|].
  destruct (export_merged cfg);
    [destruct (cut_video (x :: r) (padding_seconds cfg) (cut_run_ok env))
       as [[ok cmds] msgs]|];
    (destruct (cancelled_after_merged env);
       [split; [reflexivity | split; discriminate]|]);
    (destruct (export_clips_enabled cfg);
       [destruct (export_clips (x :: r) (padding_seconds cfg) (clip_run_ok env))
          as [[created cmds'] msgs']|]);
    split; try reflexivity; split; reflexivity.
Qed.



Lemma cut_video_cons : forall x r p run_ok,
  cut_video (x :: r) p run_ok =
  (run_ok,
   [FilterComplex (filter_loop (x :: r) 0 p []) (List.length (x :: r))],
   [CreatingVideo (List.length (x :: r)); if run_ok then VideoCreated else CutFailed]).
Proof. reflexivity. Qed.


(** X19.  The output files of a successful run are, in this order: the
    merged video if that export is enabled and the transcoder returned
    code 0, the clips whose extraction succeeded if the clip export is
    enabled, the timestamp report and the marker file if enabled and
    written.  A failed export leaves its file out and changes nothing
    else. *)
Theorem process_video_output_files : forall cfg env,
  success (fst (fst (process_video cfg env))) = true ->
  output_files (fst (fst (process_video cfg env))) =
    (if export_merged cfg && cut_run_ok env then [MergedFile] else []) ++
    (if export_clips_enabled cfg
     then map ClipFile
            (filter (clip_run_ok env)
               (seq 1 (List.length
                         (_detect_keep_segments cfg env (processing_mode cfg)))))
     else []) ++
    (if export_timestamps cfg && report_file_ok env then [TimestampFile] else []) ++
    (if export_xml cfg && xml_file_ok env then [PremiereFile] else []).
Proof.
  intros cfg env. unfold process_video.
  destruct (cancelled_after_detect env); [discriminate|].
  destruct (_detect_keep_segments cfg env (processing_mode cfg)) as [|x r];
    [discriminate|].
  rewrite cut_video_cons.
  pose proof (export_clips_created (x :: r) (padding_seconds cfg) (clip_run_ok env))
    as Hcreated.
  unfold generate_timestamp_report.
  destruct (export_merged cfg), (cut_run_ok env), (cancelled_after_merged env);
    try discriminate;
    (destruct (export_clips_enabled cfg);
       [destruct (export_clips (x :: r) (padding_seconds cfg) (clip_run_ok env))
          as [[created cmds'] msgs']; simpl in Hcreated; subst created|]);
    destruct (export_timestamps cfg), (report_file_ok env),
             (export_xml cfg), (xml_file_ok env);
    intros _; simpl; rewrite ?app_nil_r, <- ?app_assoc; reflexivity.
Qed.

Lemma process_video_output_files_witness :
  output_files (fst (fst (process_video default_config
    {| video_info := Some (Some 60000);
       silence_detected := [(10000, 15000)];
       audio_extracted := true; transcription := None;
       cancelled_after_detect := false; cancelled_after_merged := false;
       cut_run_ok := true; clip_run_ok := fun i => Nat.eqb i 2;
       report_file_ok := true; xml_file_ok := true |})))
  = [MergedFile; ClipFile 2; TimestampFile].
Proof.
  apply (process_video_output_files default_config
    {| video_info := Some (Some 60000);
       silence_detected := [(10000, 15000)];
       audio_extracted := true; transcription := None;
       cancelled_after_detect := false; cancelled_after_merged := false;
       cut_run_ok := true; clip_run_ok := fun i => Nat.eqb i 2;
       report_file_ok := true; xml_file_ok := true |} eq_refl).
Defined.

Lemma total_length_nil_inv : forall l, 0 < total_length l -> l <> [].
Proof. intros l H E. subst l. simpl in H. lia. Qed.





(** ** The report and the inversion are the same walk *)

Lemma removed_ranges_app : forall rows1 rows2,
  removed_ranges (rows1 ++ rows2) = removed_ranges rows1 ++ removed_ranges rows2.
Proof.
  induction rows1 as [|r rest IH]; intros rows2; simpl.
  - reflexivity.
  - rewrite IH. destruct (row_action r); reflexivity.
Qed.

Lemma report_rows_removed_ranges : forall l n last_end,
  removed_ranges (report_rows l n last_end) = gaps l last_end.
Proof.
  induction l as [|[s e] r IH]; intros n le; simpl.
  - reflexivity.
  - destruct (s >? le); simpl; rewrite IH; reflexivity.
Qed.

(** X22.  For every non-empty segment list, the REMOVED rows of the
    timestamp report are exactly what [_invert_segments] returns on the same
    list and duration: the report removes what inverting the keep list
    would keep. *)
Theorem timestamp_rows_removed_is_inversion : forall segs D,
  segs <> [] ->
  removed_ranges (timestamp_rows segs D) = _invert_segments segs D.
Proof.
  intros segs D Hne.
  rewrite timestamp_rows_spec, _invert_segments_spec by assumption.
  rewrite removed_ranges_app, report_rows_removed_ranges.
  destruct (final_end (sorted segs) 0 <? D); reflexivity.
Qed.

Lemma timestamp_rows_removed_is_inversion_witness :
  removed_ranges (timestamp_rows [(0, 10); (15, 40)] 60)
    = _invert_segments [(0, 10); (15, 40)] 60.
Proof.
  apply (timestamp_rows_removed_is_inversion [(0, 10); (15, 40)] 60). discriminate.
Defined.

(** ** Inverting twice *)

Lemma invert_from_cons : forall s e r a D,
  invert_from ((s, e) :: r) a D =
  (if s >? a then [(a, s)] else []) ++ invert_from r e D.
Proof.
  intros. unfold invert_from. simpl. rewrite <- app_assoc. reflexivity.
Qed.

Lemma invert_from_twice : forall l a b D,
  Forall (proper_within D) l ->
  strictly_separated l ->
  b <= a <= D ->
  Forall (fun x => a <= istart x /\ (b < a -> a < istart x)) (firstn 1 l) ->
  invert_from (invert_from l a D) b D = (if b <? a then [(b, a)] else []) ++ l.
Proof.
  unfold strictly_separated.
  induction l as [|[s e] r IH]; intros a b D Hin Hsep Hab Hhd.
  - unfold invert_from at 2. simpl.
    destruct (Z.ltb_spec a D).
    + unfold invert_from. simpl.
      rewrite Z.ltb_irrefl, app_nil_r.
      destruct (Z.gtb_spec a b), (Z.ltb_spec b a); try lia; reflexivity.
    + unfold invert_from. simpl.
      destruct (Z.ltb_spec b D), (Z.ltb_spec b a); try lia; try reflexivity.
      assert (a = D) by lia. subst a. reflexivity.
  - inversion Hin as [|? ? Hse Hin']; subst.
    unfold proper_within, istart, iend in Hse. simpl in Hse.
    inversion Hsep as [|? ? Hsep' Hrel]; subst.
    simpl in Hhd. inversion Hhd as [|? ? Hh _]; subst.
    unfold istart in Hh. simpl in Hh.
    assert (Hr : Forall (fun x => e <= istart x /\ (s < e -> e < istart x)) (firstn 1 r)).
    { destruct r as [|y r']; simpl; constructor; [|constructor].
      inversion Hrel; subst. unfold iend in *. simpl in *. lia. }
    rewrite invert_from_cons.
    destruct (Z.gtb_spec s a) as [Hgt|Hle].
    + simpl app. rewrite invert_from_cons.
      rewrite (IH e s D Hin' Hsep'); [|lia|exact Hr].
      destruct (Z.gtb_spec a b), (Z.ltb_spec b a), (Z.ltb_spec s e); try lia;
        reflexivity.
    + assert (s = a) by lia. subst s.
      assert (b = a) by (destruct (Z.lt_ge_cases b a); [lia | lia]). subst b.
      simpl app.
      rewrite (IH e a D Hin' Hsep'); [|lia|].
      * rewrite Z.ltb_irrefl.
        destruct (Z.ltb_spec a e); [reflexivity | lia].
      * eapply Forall_impl; [|exact Hr]. simpl. intros; lia.
Qed.

Lemma proper_within_within : forall D l,
  Forall (proper_within D) l -> Forall (within D) l.
Proof.
  intros D l H. eapply Forall_impl; [|exact H].
  unfold proper_within, within. intros; lia.
Qed.

Lemma strictly_separated_non_overlapping : forall l,
  Forall well_formed l -> strictly_separated l -> non_overlapping l.
Proof.
  unfold strictly_separated, non_overlapping. intros l Hwf H.
  induction H as [|x r Hr IH Hhd]; constructor.
  - apply IH. inversion Hwf; assumption.
  - inversion Hwf as [|? ? Hx Hwf']; subst.
    specialize (IH Hwf').
    destruct Hhd as [|y r' Hxy]; constructor.
    + lia.
    + inversion IH as [|? ? _ Hall]; subst.
      inversion Hwf' as [|? ? Hy _]; subst. unfold well_formed in Hy.
      eapply Forall_impl; [|exact Hall]. simpl. intros z Hz. lia.
Qed.

(** X23.  Inverting twice gives the list back: for a duration [D >= 0] and
    a list of non-empty intervals inside [[0, D]], each ending before the
    next one starts, [_invert_segments] applied to the result of
    [_invert_segments] returns the original list. *)
Theorem invert_segments_involutive : forall sil D,
  0 <= D ->
  Forall (proper_within D) sil ->
  strictly_separated sil ->
  _invert_segments (_invert_segments sil D) D = sil.
Proof.
  intros sil D HD Hin Hsep.
  pose proof (proper_within_within _ _ Hin) as Hw.
  pose proof (within_well_formed _ _ Hw) as Hwf.
  pose proof (strictly_separated_non_overlapping _ Hwf Hsep) as Hno.
  destruct sil as [|x r].
  - simpl. unfold _invert_segments. simpl.
    destruct (Z.gtb_spec 0 0); [lia|]. simpl.
    rewrite Z.ltb_irrefl. reflexivity.
  - assert (Hk : _invert_segments (x :: r) D = invert_from (x :: r) 0 D).
    { rewrite _invert_segments_spec by congruence.
      rewrite (sorted_fixes_tuple_sorted (x :: r))
        by (apply non_overlapping_tuple_sorted; assumption).
      reflexivity. }
    assert (Htwice : invert_from (invert_from (x :: r) 0 D) 0 D = x :: r).
    { rewrite invert_from_twice; try assumption; [reflexivity | lia |].
      simpl. constructor; [|constructor].
      inversion Hin as [|? ? Hx _]; subst. unfold proper_within in Hx. lia. }
    rewrite Hk.
    destruct (invert_from (x :: r) 0 D) as [|k ks] eqn:EK.
    + unfold invert_from in Htwice. simpl in Htwice.
      destruct (0 <? D); [|discriminate].
      simpl. exact Htwice.
    + rewrite _invert_segments_spec by congruence.
      rewrite sorted_fixes_tuple_sorted; [exact Htwice|].
      rewrite <- Hk.
      apply non_overlapping_tuple_sorted.
      * eapply Forall_impl; [|apply (invert_segments_proper (x :: r) D); congruence].
        unfold well_formed. simpl. intros; lia.
      * apply invert_non_overlapping. assumption.
Qed.

Lemma invert_segments_involutive_witness :
  _invert_segments (_invert_segments [(0, 15); (40, 60)] 60) 60 = [(0, 15); (40, 60)].
Proof.
  apply (invert_segments_involutive [(0, 15); (40, 60)] 60).
  - lia.
  - repeat constructor; unfold istart, iend; simpl; lia.
  - repeat constructor; unfold istart, iend; simpl; lia.
Defined.

(** ** The parser of [detect_silence] *)

Lemma silence_loop_other : forall n lines segs st,
  silence_loop (repeat other_line n ++ lines) segs st = silence_loop lines segs st.
Proof.
  induction n as [|n IH]; intros lines segs st; simpl.
  - reflexivity.
  - apply IH.
Qed.

Lemma silence_loop_log : forall l noise segs,
  silence_loop (silence_log noise l) segs None = Some (segs ++ l).
Proof.
  induction l as [|[s e] r IH]; intros noise segs; simpl.
  - rewrite app_nil_r. reflexivity.
  - rewrite silence_loop_other. simpl.
    rewrite silence_loop_other. simpl.
    rewrite IH, <- app_assoc. reflexivity.
Qed.



Lemma silence_loop_filter : forall lines segs st,
  silence_loop (filter mentions_silence lines) segs st = silence_loop lines segs st.
Proof.
  induction lines as [|l r IH]; intros segs st; simpl.
  - reflexivity.
  - unfold mentions_silence at 1.
    destruct (has_silence_start l) eqn:Hs; simpl.
    + rewrite Hs. destruct (silence_start_field l); try apply IH. reflexivity.
    + destruct (has_silence_end l) eqn:He; simpl.
      * rewrite Hs, He. destruct st as [start|]; [|apply IH].
        destruct (silence_end_field l); try apply IH. reflexivity.
      * apply IH.
Qed.

Lemma silence_loop_pending_start : forall lines segs st v,
  silence_loop (lines ++ [start_line v]) segs st = silence_loop lines segs st.
Proof.
  induction lines as [|l r IH]; intros segs st v; simpl.
  - reflexivity.
  - destruct (has_silence_start l).
    + destruct (silence_start_field l); try apply IH. reflexivity.
    + destruct (has_silence_end l); [|apply IH].
      destruct st as [start|]; [|apply IH].
      destruct (silence_end_field l); try apply IH. reflexivity.
Qed.

(** X25.  What the parser of [detect_silence] drops: lines that mention
    neither key change nothing; a [silence_end] line with no
    [silence_start] before it is ignored; a [silence_start] line at the end
    of the log, with no [silence_end] after it, adds no interval (a silence
    that runs to the end of the log is lost unless its end is logged); and
    when two [silence_start] lines follow one another the later one
    counts. *)
Theorem detect_silence_dropped_lines : forall lines v w,
  detect_silence (Some (filter mentions_silence lines)) = detect_silence (Some lines) /\
  detect_silence (Some (end_line v :: lines)) = detect_silence (Some lines) /\
  detect_silence (Some (lines ++ [start_line v])) = detect_silence (Some lines) /\
  detect_silence (Some (start_line v :: start_line w :: lines))
    = detect_silence (Some (start_line w :: lines)).
Proof.
  intros lines v w. unfold detect_silence.
  rewrite silence_loop_filter, silence_loop_pending_start.
  repeat split; reflexivity.
Qed.

(** X26.  One number that [float] refuses discards the whole detection:
    when the parser meets a [silence_start] line whose matched text is not a
    number, [detect_silence] returns the empty list whatever it collected
    before, as it does when the transcoder cannot be run; in [ffmpeg] mode
    the reconciler then keeps the whole video. *)
Theorem detect_silence_bad_number : forall l noise lines cfg env,
  detect_silence
    (Some (silence_log noise l ++ mkLine true BadNumber false NoMatch :: lines)) = [] /\
  detect_silence None = [] /\
  (silence_detected env = detect_silence None ->
   _detect_keep_segments cfg env "ffmpeg" = [(0, _get_duration env)]).
Proof.
  intros l noise lines cfg env. split; [|split].
  - unfold detect_silence.
    assert (H : forall segs,
              silence_loop (silence_log noise l ++
                            mkLine true BadNumber false NoMatch :: lines) segs None
              = None).
    { induction l as [|[s e] r IH]; intros segs; simpl.
      - reflexivity.
      - rewrite <- app_assoc, silence_loop_other. simpl.
        rewrite <- app_assoc, silence_loop_other. simpl. apply IH. }
    rewrite H. reflexivity.
  - reflexivity.
  - intros H. unfold _detect_keep_segments. simpl. rewrite H. reflexivity.
Qed.

Lemma detect_silence_bad_number_witness :
  _detect_keep_segments default_config (quiet_env (Some (Some 60000)) [] None) "ffmpeg"
    = [(0, 60000)].
Proof.
  apply (proj2 (proj2 (detect_silence_bad_number [] 0 [] default_config
                         (quiet_env (Some (Some 60000)) [] None)))).
  reflexivity.
Defined.

(** ** The interchange markers *)

Lemma markers_loop_spec : forall l i acc,
  map marker_range (markers_loop l i acc) = map marker_range acc ++ l /\
  map marker_number (markers_loop l i acc)
    = map marker_number acc ++ seq i (List.length l).
Proof.
  induction l as [|[s e] r IH]; intros i acc; simpl.
  - rewrite !app_nil_r. split; reflexivity.
  - destruct (IH (S i) (acc ++ [mkMarker i s (e - s)])) as [H1 H2].
    rewrite H1, H2, !map_app, <- !app_assoc. simpl.
    unfold marker_range at 2. simpl.
    replace (s + (e - s)) with e by lia. split; reflexivity.
Qed.



(** ** The Whisper handler *)

Lemma loads_before_transcribing_app : forall ev1 ev2 loaded,
  loads_before_transcribing loaded (ev1 ++ ev2) =
  loads_before_transcribing loaded ev1 &&
  loads_before_transcribing (loaded || existsb is_successful_load ev1) ev2.
Proof.
  induction ev1 as [|e rest IH]; intros ev2 loaded; simpl.
  - rewrite orb_false_r. reflexivity.
  - destruct e as [ok|].
    + rewrite IH. destruct ok; simpl.
      * rewrite !orb_true_r. simpl. reflexivity.
      * rewrite !orb_false_r. reflexivity.
    + rewrite IH. simpl. rewrite andb_assoc. reflexivity.
Qed.

(** One call, from a handler whose model is loaded only if the availability
    is cached as true. *)
Lemma transcribe_audio_step : forall h w,
  (model h <> None -> _whisper_available h = Some true) ->
  let '(result, h1, events) := transcribe_audio h w in
  (model h1 <> None -> _whisper_available h1 = Some true) /\
  (model h <> None -> h1 = h /\ events = [Transcribe] /\ result = transcribe_result w) /\
  (model h = None ->
     (List.length (filter is_successful_load events) <= 1)%nat /\
     loads_before_transcribing false events = true /\
     (existsb is_successful_load events = true <-> model h1 <> None)) /\
  (result <> None -> model h1 <> None) /\
  (_whisper_available h = Some false -> result = None /\ events = [] /\ h1 = h).
Proof.
  intros [m av] w Hinv. unfold transcribe_audio, load_model, is_whisper_available.
  simpl in *.
  destruct av as [[|]|]; simpl.
  - destruct m as [mm|]; simpl.
    + repeat split; intros; simpl in *; try congruence; try lia; auto.
    + destruct (import_ok w && load_ok w); simpl;
        repeat split; intros; simpl in *; try congruence; try lia; auto.
  - assert (m = None)
      by (destruct m; [specialize (Hinv ltac:(discriminate)); discriminate | reflexivity]).
    subst m. simpl.
    repeat split; intros; simpl in *; try congruence; try lia; auto.
  - assert (m = None)
      by (destruct m; [specialize (Hinv ltac:(discriminate)); discriminate | reflexivity]).
    subst m. destruct (import_ok w); simpl.
    + destruct (load_ok w); simpl;
        repeat split; intros; simpl in *; try congruence; try lia; auto.
    + repeat split; intros; simpl in *; try congruence; try lia; auto.
Qed.

Lemma transcribe_all_invariant : forall ws h,
  (model h <> None -> _whisper_available h = Some true) ->
  let h' := snd (fst (transcribe_all h ws)) in
  let events := snd (transcribe_all h ws) in
  let results := fst (fst (transcribe_all h ws)) in
  (model h' <> None -> _whisper_available h' = Some true) /\
  (model h <> None ->
     model h' <> None /\ existsb is_successful_load events = false /\
     filter is_successful_load events = [] /\
     loads_before_transcribing true events = true) /\
  (model h = None ->
     (List.length (filter is_successful_load events) <= 1)%nat /\
     loads_before_transcribing false events = true /\
     (existsb is_successful_load events = true <-> model h' <> None)) /\
  ((exists r, In r results /\ r <> None) -> model h' <> None).
Proof.
  induction ws as [|w rest IH]; intros h Hinv.
  - simpl. repeat split; intros; simpl in *; try congruence; try lia; auto.
    destruct H as [r [[] _]].
  - simpl.
    pose proof (transcribe_audio_step h w Hinv) as Hstep.
    destruct (transcribe_audio h w) as [[result h1] ev1].
    destruct Hstep as [Hinv1 [Hloaded [Hfresh [Hres Hfalse]]]].
    specialize (IH h1 Hinv1).
    destruct (transcribe_all h1 rest) as [[results h2] ev2].
    simpl in IH. destruct IH as [Hinv2 [IHloaded [IHfresh IHres]]].
    cbn [fst snd]. split; [exact Hinv2|]. split; [|split].
    + intros Hm. destruct (Hloaded Hm) as [-> [-> _]].
      destruct (IHloaded Hm) as [H1 [H2 [H3 H4]]].
      simpl. rewrite H2, H3, H4. auto.
    + intros Hm. destruct (Hfresh Hm) as [Hc1 [Hb1 Hiff1]].
      rewrite filter_app, length_app, loads_before_transcribing_app, existsb_app.
      rewrite Hb1. simpl.
      destruct (existsb is_successful_load ev1) eqn:Eex.
      * assert (Hm1 : model h1 <> None) by (apply Hiff1; reflexivity).
        destruct (IHloaded Hm1) as [H1 [H2 [H3 H4]]].
        rewrite H2, H3, H4. simpl. repeat split; auto. lia.
      * assert (Hm1 : model h1 = None).
        { destruct (model h1) eqn:Em; [|reflexivity].
          assert (false = true) by (apply Hiff1; discriminate). discriminate. }
        destruct (IHfresh Hm1) as [Hc2 [Hb2 Hiff2]].
        assert (Hnil : filter is_successful_load ev1 = []).
        { clear - Eex. induction ev1 as [|e r IHr]; [reflexivity|].
          simpl in *. apply orb_false_iff in Eex. destruct Eex as [E1 E2].
          rewrite E1. auto. }
        rewrite Hnil. simpl. rewrite Hb2. repeat split; auto; apply Hiff2.
    + intros [r [[<-|Hin] Hr]].
      * specialize (Hres Hr).
        destruct (IHloaded Hres) as [H1 _]. exact H1.
      * apply IHres. exists r. auto.
Qed.

(** X28.  The answer of [is_whisper_available] is cached: once it has been
    asked, every later call gives the same answer and leaves the handler as
    it is, whatever has changed outside; in particular, after one failed
    import [transcribe_audio] returns nothing and attempts nothing, even
    when the import would now succeed. *)
Theorem whisper_availability_is_cached : forall h w w',
  is_whisper_available (snd (is_whisper_available h w)) w'
    = (fst (is_whisper_available h w), snd (is_whisper_available h w)) /\
  (_whisper_available h = None -> import_ok w = false ->
   transcribe_audio (snd (is_whisper_available h w)) w'
     = (None, snd (is_whisper_available h w), [])).
Proof.
  intros [m av] w w'. unfold transcribe_audio, is_whisper_available. simpl.
  split.
  - destruct av as [b|]; simpl; [reflexivity|].
    destruct (import_ok w); reflexivity.
  - intros -> ->. reflexivity.
Qed.

Lemma whisper_availability_is_cached_witness :
  transcribe_audio
    (snd (is_whisper_available new_handler (mkWorld false true None)))
    (mkWorld true true (Some (mkTranscription (Some [(0, 1)]))))
  = (None, snd (is_whisper_available new_handler (mkWorld false true None)), []).
Proof.
  apply (proj2 (whisper_availability_is_cached new_handler
                  (mkWorld false true None)
                  (mkWorld true true (Some (mkTranscription (Some [(0, 1)])))))).
  - reflexivity.
  - reflexivity.
Defined.

(** X29.  Over any series of [transcribe_audio] calls on a new handler, the
    model is loaded successfully at most once, nothing is transcribed before
    that load, and a call can only have returned a transcription if the
    handler ends with a loaded model. *)
Theorem transcribe_all_loads_once : forall ws,
  (List.length (filter is_successful_load (snd (transcribe_all new_handler ws)))
     <= 1)%nat /\
  loads_before_transcribing false (snd (transcribe_all new_handler ws)) = true /\
  ((exists r, In r (fst (fst (transcribe_all new_handler ws))) /\ r <> None) ->
   model (snd (fst (transcribe_all new_handler ws))) <> None).
Proof.
  intros ws.
  destruct (transcribe_all_invariant ws new_handler) as [_ [_ [Hfresh Hres]]].
  - simpl. congruence.
  - destruct (Hfresh eq_refl) as [H1 [H2 _]]. auto.
Qed.

(** A failed load, then a successful one, then a call that reuses the
    model. *)
Lemma transcribe_all_loads_once_witness :
  snd (transcribe_all new_handler
         [mkWorld true false None;
          mkWorld true true (Some (mkTranscription (Some [(0, 1)])));
          mkWorld true false (Some (mkTranscription None))])
  = [LoadModel false; LoadModel true; Transcribe; Transcribe] /\
  model (snd (fst (transcribe_all new_handler
         [mkWorld true false None;
          mkWorld true true (Some (mkTranscription (Some [(0, 1)])));
          mkWorld true false (Some (mkTranscription None))]))) <> None.
Proof.
  split; [reflexivity|].
  apply (proj2 (proj2 (transcribe_all_loads_once
         [mkWorld true false None;
          mkWorld true true (Some (mkTranscription (Some [(0, 1)])));
          mkWorld true false (Some (mkTranscription None))]))).
  exists (Some (mkTranscription (Some [(0, 1)]))). split.
  - simpl. auto.
  - discriminate.
Defined.
